(** * Zeno: the day-timeline optimisation engine

    A shallow embedding of [zeno/models.py] and [zeno/engine.py].

    Python integers are unbounded, so minutes are [Z].  Strings are
    [String.string]; titles are compared after [str.lower], embedded here on
    the ASCII letters.  Pydantic models are records, one module per class so
    that the fields keep their names; a constructor that validates its fields
    ([TimelineSlot]) is a function into [outcome].  Exceptions are the
    constructors of [exn], and the code that may raise lives in the [outcome]
    monad.  Lists that the code mutates in place ([append], [pop],
    [merged[-1] = ...]) are threaded through the loops as explicit state. *)

From Stdlib Require Import ZArith List String Ascii Bool Lia Permutation Sorted.
From Stdlib Require Import DecimalString.
Import ListNotations.
Local Open Scope Z_scope.

(** ** Exceptions and the outcome monad *)

Inductive exn : Type :=
| ValueError (msg : string)
| ValidationError
| IndexError.

Inductive outcome (A : Type) : Type :=
| Return (a : A)
| Raise (e : exn).

Arguments Return {A} a.
Arguments Raise {A} e.

Definition bind {A B : Type} (c : outcome A) (k : A -> outcome B) : outcome B :=
  match c with
  | Return a => k a
  | Raise e => Raise e
  end.

Notation "x <- c ;; k" := (bind c (fun x => k))
  (at level 61, c at next level, right associativity).

Fixpoint mapM {A B : Type} (f : A -> outcome B) (l : list A) : outcome (list B) :=
  match l with
  | [] => Return []
  | x :: rest =>
      y <- f x ;;
      ys <- mapM f rest ;;
      Return (y :: ys)
  end.

Fixpoint foldM {A S : Type} (f : S -> A -> outcome S) (l : list A) (s : S) : outcome S :=
  match l with
  | [] => Return s
  | x :: rest =>
      s' <- f s x ;;
      foldM f rest s'
  end.

(** ** Python built-ins used by the engine *)

(** [sorted(l, key=...)] is a stable sort; [key_le x y] stands for
    [key(x) <= key(y)].  An element is inserted in front of the elements
    that followed it in the input and whose key is not smaller, which is
    what stability means; the result of a stable sort is unique. *)
Section StableSort.
Context {A : Type} (key_le : A -> A -> bool).

Fixpoint insert_sorted (x : A) (l : list A) : list A :=
  match l with
  | [] => [x]
  | y :: rest => if key_le x y then x :: l else y :: insert_sorted x rest
  end.

Definition sorted (l : list A) : list A := fold_right insert_sorted [] l.
End StableSort.

(** Comparison of the tuples used as sort keys. *)
Definition pair_le (a b : Z * Z) : bool :=
  (fst a <? fst b) || ((fst a =? fst b) && (snd a <=? snd b)).

Definition triple_le (a b : Z * Z * string) : bool :=
  let '(a1, a2, a3) := a in
  let '(b1, b2, b3) := b in
  (a1 <? b1) || ((a1 =? b1) && ((a2 <? b2) || ((a2 =? b2) && String.leb a3 b3))).

(** [str.lower] on ASCII letters. *)
Definition lower_ascii (c : ascii) : ascii :=
  let n := nat_of_ascii c in
  if (Nat.leb 65 n && Nat.leb n 90)%bool then ascii_of_nat (n + 32) else c.

Fixpoint lower (s : string) : string :=
  match s with
  | EmptyString => EmptyString
  | String c rest => String (lower_ascii c) (lower rest)
  end.

(** [enumerate(l)] *)
Definition enumerate {A : Type} (l : list A) : list (nat * A) :=
  combine (seq 0 (List.length l)) l.

(** [max(x :: l, key=key)]: the first of the items with the largest key. *)
Definition max_by {A : Type} (key : A -> Z) (x : A) (l : list A) : A :=
  fold_left (fun best y => if key best <? key y then y else best) l x.

(** [l.pop(i)] for [0 <= i]: the item and the list without it. *)
Fixpoint pop {A : Type} (l : list A) (i : nat) : outcome (A * list A) :=
  match l, i with
  | [], _ => Raise IndexError
  | x :: rest, O => Return (x, rest)
  | x :: rest, S j =>
      r <- pop rest j ;;
      Return (fst r, x :: snd r)
  end.

(** [f"{n}"] for an integer. *)
Definition str_of_int (n : Z) : string := NilZero.string_of_int (Z.to_int n).

(** ** models.py *)

Definition MINUTES_PER_DAY : Z := 24 * 60.

Definition len_between (lo hi : nat) (s : string) : bool :=
  (Nat.leb lo (String.length s) && Nat.leb (String.length s) hi)%bool.

Module FixedBlock.
Record t : Type := mk
  { id : string; title : string; start_minute : Z; end_minute : Z }.

(** The field constraints and [validate_range]. *)
Definition valid (b : t) : bool :=
  len_between 1 120 (id b) && len_between 1 120 (title b)
  && (0 <=? start_minute b) && (start_minute b <? MINUTES_PER_DAY)
  && (0 <? end_minute b) && (end_minute b <=? MINUTES_PER_DAY)
  && negb (end_minute b <=? start_minute b).
End FixedBlock.

Module FlexibleTask.
Record t : Type := mk
  { id : string; title : string; duration_minutes : Z;
    priority : Z; category : string }.

Definition valid (k : t) : bool :=
  len_between 1 120 (id k) && len_between 1 120 (title k)
  && (0 <? duration_minutes k) && (duration_minutes k <=? MINUTES_PER_DAY)
  && (1 <=? priority k) && (priority k <=? 3)
  && len_between 1 80 (category k).
End FlexibleTask.

Module DayScheduleRequest.
Record t : Type := mk
  { fixed_blocks : list FixedBlock.t;
    flexible_tasks : list FlexibleTask.t;
    transition_buffer_minutes : Z }.

Definition valid (r : t) : bool :=
  forallb FixedBlock.valid (fixed_blocks r)
  && forallb FlexibleTask.valid (flexible_tasks r)
  && (0 <=? transition_buffer_minutes r) && (transition_buffer_minutes r <=? 120).
End DayScheduleRequest.

Module ScheduledTask.
Record t : Type := mk
  { id : string; title : string; category : string; priority : Z;
    start_minute : Z; end_minute : Z }.
End ScheduledTask.

(** [Literal["fixed", "task", "free"]] *)
Inductive SlotType : Type := fixed_slot | task_slot | free_slot.

Module TimelineSlot.
Record t : Type := mk
  { slot_type : SlotType; id : string; title : string;
    start_minute : Z; end_minute : Z;
    category : option string; priority : option Z }.

Definition valid (s : t) : bool :=
  (0 <=? start_minute s) && (start_minute s <? MINUTES_PER_DAY)
  && (0 <? end_minute s) && (end_minute s <=? MINUTES_PER_DAY).

(** [TimelineSlot(...)]: pydantic checks the fields when the object is built. *)
Definition new (ty : SlotType) (i ttl : string) (s e : Z)
    (cat : option string) (prio : option Z) : outcome t :=
  let slot := mk ty i ttl s e cat prio in
  if valid slot then Return slot else Raise ValidationError.
End TimelineSlot.

Module TimelineResponse.
Record t : Type := mk
  { day_start_minute : Z; day_end_minute : Z;
    transition_buffer_minutes : Z;
    timeline : list TimelineSlot.t;
    scheduled_tasks : list ScheduledTask.t;
    unscheduled_tasks : list FlexibleTask.t }.
End TimelineResponse.

(** ** engine.py *)

Module Interval.
Record t : Type := mk { start : Z; end_ : Z }.
Definition duration (i : t) : Z := end_ i - start i.
End Interval.

(** *** [_sorted_non_overlapping_fixed_blocks] *)

Definition block_key_le (a b : FixedBlock.t) : bool :=
  pair_le (FixedBlock.start_minute a, FixedBlock.end_minute a)
          (FixedBlock.start_minute b, FixedBlock.end_minute b).

Definition overlap_msg (prev curr : FixedBlock.t) : string :=
  ("Fixed blocks overlap: '" ++ FixedBlock.id prev ++ "' and '"
     ++ FixedBlock.id curr ++ "'")%string.

(** The loop over [idx] in [range(1, len(sorted_blocks))]: each block is
    compared with the one before it, and the first offending pair raises. *)
Fixpoint check_adjacent (sorted_blocks : list FixedBlock.t) : outcome unit :=
  match sorted_blocks with
  | prev :: ((curr :: _) as rest) =>
      if FixedBlock.start_minute curr <? FixedBlock.end_minute prev
      then Raise (ValueError (overlap_msg prev curr))
      else check_adjacent rest
  | _ => Return tt
  end.

Definition _sorted_non_overlapping_fixed_blocks (blocks : list FixedBlock.t)
  : outcome (list FixedBlock.t) :=
  let sorted_blocks := sorted block_key_le blocks in
  _ <- check_adjacent sorted_blocks ;;
  Return sorted_blocks.

(** *** [_merge_intervals] *)

Definition interval_key_le (a b : Interval.t) : bool :=
  pair_le (Interval.start a, Interval.end_ a) (Interval.start b, Interval.end_ b).

(** The list [merged] is never empty inside the loop; it is kept as the
    pair of [merged[:-1]] and [merged[-1]]. *)
Definition merge_step (merged : list Interval.t * Interval.t) (current : Interval.t)
  : list Interval.t * Interval.t :=
  let '(front, last) := merged in
  if Interval.start current <=? Interval.end_ last
  then (front, Interval.mk (Interval.start last)
                           (Z.max (Interval.end_ last) (Interval.end_ current)))
  else (front ++ [last], current).

Definition _merge_intervals (intervals : list Interval.t) : list Interval.t :=
  (* the sorted list is empty exactly when [intervals] is *)
  match sorted interval_key_le intervals with
  | [] => []
  | first :: rest =>
      let '(front, last) := fold_left merge_step rest ([], first) in
      front ++ [last]
  end.

(** *** [_available_gaps] *)

Definition buffered_interval (transition_buffer_minutes : Z) (block : FixedBlock.t)
  : Interval.t :=
  Interval.mk
    (Z.max 0 (FixedBlock.start_minute block - transition_buffer_minutes))
    (Z.min MINUTES_PER_DAY (FixedBlock.end_minute block + transition_buffer_minutes)).

(** One turn of the loop over [merged]; the state is [(gaps, cursor)]. *)
Definition gap_step (st : list Interval.t * Z) (interval : Interval.t)
  : list Interval.t * Z :=
  let '(gaps, cursor) := st in
  ((if cursor <? Interval.start interval
    then gaps ++ [Interval.mk cursor (Interval.start interval)]
    else gaps),
   Z.max cursor (Interval.end_ interval)).

Definition _available_gaps (fixed_blocks : list FixedBlock.t)
    (transition_buffer_minutes : Z) : list Interval.t :=
  match fixed_blocks with
  | [] => [Interval.mk 0 MINUTES_PER_DAY]
  | _ =>
      let buffered := map (buffered_interval transition_buffer_minutes) fixed_blocks in
      let merged := _merge_intervals buffered in
      let '(gaps, cursor) := fold_left gap_step merged ([], 0) in
      if cursor <? MINUTES_PER_DAY
      then gaps ++ [Interval.mk cursor MINUTES_PER_DAY]
      else gaps
  end.

(** *** [_largest_fitting_gap_index] *)

Definition _largest_fitting_gap_index (gaps : list Interval.t) (duration_minutes : Z)
  : option nat :=
  let fitting :=
    map (fun p => (fst p, Interval.duration (snd p)))
        (filter (fun p => duration_minutes <=? Interval.duration (snd p))
                (enumerate gaps)) in
  match fitting with
  | [] => None
  | item :: items => Some (fst (max_by snd item items))
  end.

(** *** The assignment loop of [build_day_timeline] *)

Record assign_state : Type := mk_state
  { available_gaps : list Interval.t;
    scheduled_tasks : list ScheduledTask.t;
    unscheduled_tasks : list FlexibleTask.t }.

Definition bind_task (task : FlexibleTask.t) (start end_ : Z) : ScheduledTask.t :=
  ScheduledTask.mk (FlexibleTask.id task) (FlexibleTask.title task)
    (FlexibleTask.category task) (FlexibleTask.priority task) start end_.

(** The body of [for task in prioritized_tasks]. *)
Definition assign_step (st : assign_state) (task : FlexibleTask.t) : outcome assign_state :=
  match _largest_fitting_gap_index (available_gaps st)
          (FlexibleTask.duration_minutes task) with
  | None =>
      Return (mk_state (available_gaps st) (scheduled_tasks st)
                (unscheduled_tasks st ++ [task]))
  | Some gap_index =>
      popped <- pop (available_gaps st) gap_index ;;
      let '(gap, pool) := popped in
      let start := Interval.start gap in
      let end_ := start + FlexibleTask.duration_minutes task in
      let scheduled := scheduled_tasks st ++ [bind_task task start end_] in
      let pool' :=
        if end_ <? Interval.end_ gap
        then pool ++ [Interval.mk end_ (Interval.end_ gap)]
        else pool in
      Return (mk_state pool' scheduled (unscheduled_tasks st))
  end.

Definition task_key_le (a b : FlexibleTask.t) : bool :=
  triple_le
    (FlexibleTask.priority a, - FlexibleTask.duration_minutes a,
     lower (FlexibleTask.title a))
    (FlexibleTask.priority b, - FlexibleTask.duration_minutes b,
     lower (FlexibleTask.title b)).

(** *** [_compose_timeline] *)

Definition fixed_slot_of (block : FixedBlock.t) : outcome TimelineSlot.t :=
  TimelineSlot.new fixed_slot (FixedBlock.id block) (FixedBlock.title block)
    (FixedBlock.start_minute block) (FixedBlock.end_minute block) None None.

Definition task_slot_of (task : ScheduledTask.t) : outcome TimelineSlot.t :=
  TimelineSlot.new task_slot (ScheduledTask.id task) (ScheduledTask.title task)
    (ScheduledTask.start_minute task) (ScheduledTask.end_minute task)
    (Some (ScheduledTask.category task)) (Some (ScheduledTask.priority task)).

Definition free_slot_of (start end_ : Z) : outcome TimelineSlot.t :=
  TimelineSlot.new free_slot
    ("free-" ++ str_of_int start ++ "-" ++ str_of_int end_)%string
    "Free"%string start end_ None None.

Definition slot_key_le (a b : TimelineSlot.t) : bool :=
  pair_le (TimelineSlot.start_minute a, TimelineSlot.end_minute a)
          (TimelineSlot.start_minute b, TimelineSlot.end_minute b).

(** One turn of the loop over [occupied]; the state is [(timeline, cursor)]. *)
Definition compose_step (st : list TimelineSlot.t * Z) (slot : TimelineSlot.t)
  : outcome (list TimelineSlot.t * Z) :=
  let '(timeline, cursor) := st in
  timeline' <-
    (if cursor <? TimelineSlot.start_minute slot
     then free <- free_slot_of cursor (TimelineSlot.start_minute slot) ;;
          Return (timeline ++ [free])
     else Return timeline) ;;
  Return (timeline' ++ [slot], Z.max cursor (TimelineSlot.end_minute slot)).

Definition _compose_timeline (fixed_blocks : list FixedBlock.t)
    (scheduled : list ScheduledTask.t) : outcome (list TimelineSlot.t) :=
  fixed_slots <- mapM fixed_slot_of fixed_blocks ;;
  task_slots <- mapM task_slot_of scheduled ;;
  let occupied := sorted slot_key_le (fixed_slots ++ task_slots) in
  walked <- foldM compose_step occupied ([], 0) ;;
  let '(timeline, cursor) := walked in
  if cursor <? MINUTES_PER_DAY
  then free <- free_slot_of cursor MINUTES_PER_DAY ;;
       Return (timeline ++ [free])
  else Return timeline.

(** *** [build_day_timeline] *)

Definition initial_state (gaps : list Interval.t) : assign_state :=
  mk_state gaps [] [].

Definition scheduled_key_le (a b : ScheduledTask.t) : bool :=
  ScheduledTask.start_minute a <=? ScheduledTask.start_minute b.

Definition build_day_timeline (request : DayScheduleRequest.t)
  : outcome TimelineResponse.t :=
  fixed_blocks <-
    _sorted_non_overlapping_fixed_blocks (DayScheduleRequest.fixed_blocks request) ;;
  let gaps :=
    _available_gaps fixed_blocks
      (DayScheduleRequest.transition_buffer_minutes request) in
  let prioritized_tasks :=
    sorted task_key_le (DayScheduleRequest.flexible_tasks request) in
  st <- foldM assign_step prioritized_tasks (initial_state gaps) ;;
  timeline <- _compose_timeline fixed_blocks (scheduled_tasks st) ;;
  Return (TimelineResponse.mk 0 MINUTES_PER_DAY
            (DayScheduleRequest.transition_buffer_minutes request)
            timeline
            (sorted scheduled_key_le (scheduled_tasks st))
            (unscheduled_tasks st)).

(** * Specification vocabulary *)

(** ** Intervals *)

Definition block_span (b : FixedBlock.t) : Interval.t :=
  Interval.mk (FixedBlock.start_minute b) (FixedBlock.end_minute b).

Definition task_span (k : ScheduledTask.t) : Interval.t :=
  Interval.mk (ScheduledTask.start_minute k) (ScheduledTask.end_minute k).

Definition slot_span (s : TimelineSlot.t) : Interval.t :=
  Interval.mk (TimelineSlot.start_minute s) (TimelineSlot.end_minute s).

(** A non-empty interval inside the day. *)
Definition proper (i : Interval.t) : Prop :=
  0 <= Interval.start i /\ Interval.start i < Interval.end_ i
  /\ Interval.end_ i <= MINUTES_PER_DAY.

(** Two half-open intervals [[start, end)] share no minute. *)
Definition disjoint (a b : Interval.t) : Prop :=
  Interval.end_ a <= Interval.start b \/ Interval.end_ b <= Interval.start a.

Definition pairwise_disjoint (l : list Interval.t) : Prop :=
  ForallOrdPairs disjoint l.

(** Each interval starts no earlier than the one before it ends. *)
Definition follows (a b : Interval.t) : Prop := Interval.end_ a <= Interval.start b.

Definition chain (l : list Interval.t) : Prop := Sorted follows l.

(** ** Valid requests *)

(** The decidable form of "the fixed blocks do not overlap", on the blocks
    in the order of the request. *)
Definition overlaps (a b : FixedBlock.t) : bool :=
  (FixedBlock.start_minute a <? FixedBlock.end_minute b)
  && (FixedBlock.start_minute b <? FixedBlock.end_minute a).

Fixpoint non_overlapping (l : list FixedBlock.t) : bool :=
  match l with
  | [] => true
  | b :: rest => forallb (fun c => negb (overlaps b c)) rest && non_overlapping rest
  end.

(** A valid request: every object passes its schema, and no two fixed
    blocks overlap. *)
Definition valid_request (r : DayScheduleRequest.t) : bool :=
  DayScheduleRequest.valid r && non_overlapping (DayScheduleRequest.fixed_blocks r).

(** ** Merged regions *)

(** An interval inside the day, possibly empty. *)
Definition bounded (i : Interval.t) : Prop :=
  0 <= Interval.start i /\ Interval.start i <= Interval.end_ i
  /\ Interval.end_ i <= MINUTES_PER_DAY.

Definition start_le (a b : Interval.t) : Prop := Interval.start a <= Interval.start b.

Definition covers (m l : Interval.t) : Prop :=
  Interval.start m <= Interval.start l /\ Interval.end_ l <= Interval.end_ m.

Definition covered_by (ms : list Interval.t) (l : Interval.t) : Prop :=
  exists m, In m ms /\ covers m l.

(** ** The assignment loop *)

(** The comprehension of [_largest_fitting_gap_index], with the first index
    of [enumerate] made explicit. *)
Definition fitting_from (n : nat) (gaps : list Interval.t) (d : Z) : list (nat * Z) :=
  map (fun p => (fst p, Interval.duration (snd p)))
      (filter (fun p => d <=? Interval.duration (snd p))
              (combine (seq n (List.length gaps)) gaps)).

Definition index_lt (a b : nat * Z) : Prop := (fst a < fst b)%nat.

(** The gap list after a task of duration [d] is cut from the front of [gap]. *)
Definition leftover (gap : Interval.t) (d : Z) : list Interval.t :=
  if Interval.start gap + d <? Interval.end_ gap
  then [Interval.mk (Interval.start gap + d) (Interval.end_ gap)]
  else [].

(** What [assign_step] does to the state: [rejected st task st'] when no gap
    fits, [placed st task gap st'] when [gap] was selected. *)
Definition rejected (st : assign_state) (task : FlexibleTask.t) (st' : assign_state) : Prop :=
  Forall (fun g => Interval.duration g < FlexibleTask.duration_minutes task)
         (available_gaps st)
  /\ st' = mk_state (available_gaps st) (scheduled_tasks st)
                    (unscheduled_tasks st ++ [task]).

Definition placed (st : assign_state) (task : FlexibleTask.t) (gap : Interval.t)
    (st' : assign_state) : Prop :=
  let d := FlexibleTask.duration_minutes task in
  exists l1 l2,
    available_gaps st = l1 ++ gap :: l2
    /\ _largest_fitting_gap_index (available_gaps st) d = Some (List.length l1)
    /\ d <= Interval.duration gap
    /\ Forall (fun g => Interval.duration g < Interval.duration gap) l1
    /\ Forall (fun g => Interval.duration g <= Interval.duration gap) l2
    /\ st' = mk_state ((l1 ++ l2) ++ leftover gap d)
               (scheduled_tasks st
                  ++ [bind_task task (Interval.start gap) (Interval.start gap + d)])
               (unscheduled_tasks st).

(** The scheduled tasks together with the gaps still in the pool. *)
Definition regions (st : assign_state) : list Interval.t :=
  map task_span (scheduled_tasks st) ++ available_gaps st.

(** Non-empty intervals inside the day, pairwise disjoint, and disjoint from
    every interval of [reserved]. *)
Definition separated (reserved l : list Interval.t) : Prop :=
  Forall proper l /\ pairwise_disjoint l
  /\ Forall (fun x => Forall (disjoint x) reserved) l.

Definition inv (reserved : list Interval.t) (st : assign_state) : Prop :=
  separated reserved (regions st).

Definition within (x gap : Interval.t) : Prop :=
  Interval.start gap <= Interval.start x /\ Interval.end_ x <= Interval.end_ gap.

(** Where the tasks of the loop end up: [placements] pairs each scheduled
    task with its start minute, in the order of scheduling. *)
Definition bind_at (p : FlexibleTask.t * Z) : ScheduledTask.t :=
  bind_task (fst p) (snd p) (snd p + FlexibleTask.duration_minutes (fst p)).

(** ** The overlap check *)

(** Two neighbours of the list, the second starting before the first ends. *)
Definition adjacent_overlap (l : list FixedBlock.t) (prev curr : FixedBlock.t) : Prop :=
  exists l1 l2, l = l1 ++ prev :: curr :: l2
                /\ FixedBlock.start_minute curr < FixedBlock.end_minute prev.

Definition raises_value_error {A : Type} (c : outcome A) : Prop :=
  exists msg, c = Raise (ValueError msg).

(** ** The timeline *)

(** The slots tile [[lo, hi)]: the first starts at [lo], each one is
    non-empty and starts where the previous one ends, the last ends at [hi]. *)
Fixpoint tiles (lo : Z) (l : list TimelineSlot.t) (hi : Z) : Prop :=
  match l with
  | [] => lo = hi
  | s :: rest =>
      TimelineSlot.start_minute s = lo
      /\ TimelineSlot.start_minute s < TimelineSlot.end_minute s
      /\ tiles (TimelineSlot.end_minute s) rest hi
  end.

Definition is_occupied (s : TimelineSlot.t) : bool :=
  match TimelineSlot.slot_type s with
  | free_slot => false
  | _ => true
  end.

(** The slots as the constructors build them when validation passes. *)
Definition fixed_slot_rec (block : FixedBlock.t) : TimelineSlot.t :=
  TimelineSlot.mk fixed_slot (FixedBlock.id block) (FixedBlock.title block)
    (FixedBlock.start_minute block) (FixedBlock.end_minute block) None None.

Definition task_slot_rec (task : ScheduledTask.t) : TimelineSlot.t :=
  TimelineSlot.mk task_slot (ScheduledTask.id task) (ScheduledTask.title task)
    (ScheduledTask.start_minute task) (ScheduledTask.end_minute task)
    (Some (ScheduledTask.category task)) (Some (ScheduledTask.priority task)).

Definition free_slot_rec (start end_ : Z) : TimelineSlot.t :=
  TimelineSlot.mk free_slot
    ("free-" ++ str_of_int start ++ "-" ++ str_of_int end_)%string
    "Free"%string start end_ None None.

Definition is_fixed (s : TimelineSlot.t) : bool :=
  match TimelineSlot.slot_type s with
  | fixed_slot => true
  | _ => false
  end.

(** A slot of type fixed carrying the id, title and bounds of [b]. *)
Definition is_fixed_slot_of (b : FixedBlock.t) (s : TimelineSlot.t) : bool :=
  is_fixed s
  && String.eqb (TimelineSlot.id s) (FixedBlock.id b)
  && String.eqb (TimelineSlot.title s) (FixedBlock.title b)
  && (TimelineSlot.start_minute s =? FixedBlock.start_minute b)
  && (TimelineSlot.end_minute s =? FixedBlock.end_minute b).

(** One turn of the walk, for a non-empty slot that starts at or after the
    cursor. *)
Definition free_before (cursor : Z) (slot : TimelineSlot.t) : list TimelineSlot.t :=
  if cursor <? TimelineSlot.start_minute slot
  then [free_slot_rec cursor (TimelineSlot.start_minute slot)]
  else [].

(** The occupied slots of [_compose_timeline], before sorting. *)
Definition occupied_slots (fixed_blocks : list FixedBlock.t)
    (scheduled : list ScheduledTask.t) : list TimelineSlot.t :=
  map fixed_slot_rec fixed_blocks ++ map task_slot_rec scheduled.

(** ** Runs of [build_day_timeline] *)

Definition prioritized (request : DayScheduleRequest.t) : list FlexibleTask.t :=
  sorted task_key_le (DayScheduleRequest.flexible_tasks request).

(** The state in which the assignment loop starts, for a request whose
    fixed blocks pass the overlap check. *)
Definition loop_start (request : DayScheduleRequest.t) : assign_state :=
  initial_state
    (_available_gaps (sorted block_key_le (DayScheduleRequest.fixed_blocks request))
                     (DayScheduleRequest.transition_buffer_minutes request)).

(** The buffered intervals of the fixed blocks of a request. *)
Definition reserved (request : DayScheduleRequest.t) : list Interval.t :=
  map (buffered_interval (DayScheduleRequest.transition_buffer_minutes request))
      (sorted block_key_le (DayScheduleRequest.fixed_blocks request)).

(** The shape of a successful run. *)
Record run (request : DayScheduleRequest.t) (st : assign_state)
    (response : TimelineResponse.t) : Prop := mk_run
  { run_loop : foldM assign_step (prioritized request) (loop_start request) = Return st;
    run_inv : inv (reserved request) st;
    run_returns : build_day_timeline request = Return response;
    run_buffer : TimelineResponse.transition_buffer_minutes response
                 = DayScheduleRequest.transition_buffer_minutes request;
    run_scheduled : TimelineResponse.scheduled_tasks response
                    = sorted scheduled_key_le (scheduled_tasks st);
    run_unscheduled : TimelineResponse.unscheduled_tasks response = unscheduled_tasks st;
    run_tiles : tiles 0 (TimelineResponse.timeline response) MINUTES_PER_DAY;
    run_occupied :
      filter is_occupied (TimelineResponse.timeline response)
      = sorted slot_key_le
          (occupied_slots (sorted block_key_le (DayScheduleRequest.fixed_blocks request))
                          (scheduled_tasks st));
    run_proper : Forall (fun s => proper (slot_span s)) (TimelineResponse.timeline response) }.

(** ** Example requests *)

(** Two fixed blocks leaving the gaps [[0,500)] and [[600,900)], and two
    tasks of 200 and 100 minutes. *)
Definition example_request : DayScheduleRequest.t :=
  DayScheduleRequest.mk
    [FixedBlock.mk "lunch" "Lunch" 500 600; FixedBlock.mk "evening" "Evening" 900 1440]
    [FlexibleTask.mk "mail" "Mail" 100 2 "admin";
     FlexibleTask.mk "report" "Report" 200 1 "work"]
    0.

(** A request with a buffer, for the claims about the buffer. *)
Definition buffered_request : DayScheduleRequest.t :=
  DayScheduleRequest.mk
    [FixedBlock.mk "standup" "Standup" 540 570]
    [FlexibleTask.mk "deep" "Deep work" 600 1 "work";
     FlexibleTask.mk "walk" "Walk" 30 3 "health"]
    15.

(** Two tasks with the same id, each as long as the day: the schema accepts
    the request. *)
Definition duplicate_id_request : DayScheduleRequest.t :=
  DayScheduleRequest.mk []
    [FlexibleTask.mk "a" "First" 1440 1 "work";
     FlexibleTask.mk "a" "Second" 1440 1 "work"]
    15.

(** One fixed block, 9:00 to 9:30, and no task. *)
Definition standup_request : DayScheduleRequest.t :=
  DayScheduleRequest.mk [FixedBlock.mk "standup" "Standup" 540 570] [] 15.

(** ** The claims the code departs from, as they are worded *)

(** The claim as the specification words it, tasks being identified by
    their id: the id of each task of the request occurs in exactly one of
    the two lists of the response. *)
Definition in_exactly_one_list (request : DayScheduleRequest.t)
    (response : TimelineResponse.t) : Prop :=
  forall task,
    In task (DayScheduleRequest.flexible_tasks request) ->
    let scheduled_ids :=
      map ScheduledTask.id (TimelineResponse.scheduled_tasks response) in
    let unscheduled_ids :=
      map FlexibleTask.id (TimelineResponse.unscheduled_tasks response) in
    (In (FlexibleTask.id task) scheduled_ids /\ ~ In (FlexibleTask.id task) unscheduled_ids)
    \/ (~ In (FlexibleTask.id task) scheduled_ids /\ In (FlexibleTask.id task) unscheduled_ids).

(** The claim as the specification words it: among the gaps of the pool
    that are as long as the selected one, the selected one starts first. *)
Definition selects_earliest_start (pool : list Interval.t) (d : Z) : Prop :=
  forall i gap,
    _largest_fitting_gap_index pool d = Some i ->
    nth_error pool i = Some gap ->
    forall g, In g pool -> Interval.duration g = Interval.duration gap ->
              Interval.start gap <= Interval.start g.

(** [pool] is the gap pool when the loop, run on a valid request, turns to
    [task]. *)
Definition reachable_pool (request : DayScheduleRequest.t) (pool : list Interval.t)
    (task : FlexibleTask.t) : Prop :=
  valid_request request = true
  /\ exists done rest st,
       prioritized request = done ++ task :: rest
       /\ foldM assign_step done (loop_start request) = Return st
       /\ available_gaps st = pool.

(** The bounds of the free slots of a timeline, in order. *)
Definition free_spans (timeline : list TimelineSlot.t) : list Interval.t :=
  map slot_span (filter (fun s => negb (is_occupied s)) timeline).

(** ** Further vocabulary *)

(** The minute [m] lies in the half-open interval. *)
Definition contains (i : Interval.t) (m : Z) : Prop :=
  Interval.start i <= m < Interval.end_ i.

(** The minute [m] lies in one of the intervals of the list. *)
Definition covered (l : list Interval.t) (m : Z) : Prop :=
  exists i, In i l /\ contains i m.

(** [b] starts strictly after [a] ends: they neither overlap nor touch. *)
Definition strictly_apart (a b : Interval.t) : Prop :=
  Interval.end_ a < Interval.start b.

Definition well_formed (i : Interval.t) : Prop :=
  Interval.start i <= Interval.end_ i.

(** The minutes of a list of intervals, added up. *)
Definition total_duration (l : list Interval.t) : Z :=
  fold_right (fun i acc => Interval.duration i + acc) 0 l.

(** The order in which the assignment loop takes the tasks, as far as the
    numbers decide it: lower priority value first, and among equal
    priorities the longer task first. *)
Definition taken_before (a b : FlexibleTask.t) : Prop :=
  FlexibleTask.priority a < FlexibleTask.priority b
  \/ (FlexibleTask.priority a = FlexibleTask.priority b
      /\ FlexibleTask.duration_minutes b <= FlexibleTask.duration_minutes a).

(** The gaps the assignment loop starts from. *)
Definition initial_gaps (request : DayScheduleRequest.t) : list Interval.t :=
  _available_gaps (sorted block_key_le (DayScheduleRequest.fixed_blocks request))
                  (DayScheduleRequest.transition_buffer_minutes request).


(** Three tasks for two and a half hours of gaps: the longest one, of
    highest priority, is turned down, and so is the equally long one that
    follows it. *)
Definition crowded_request : DayScheduleRequest.t :=
  DayScheduleRequest.mk
    [FixedBlock.mk "morning" "Morning" 0 600; FixedBlock.mk "night" "Night" 750 1440]
    [FlexibleTask.mk "short" "Short" 60 3 "admin";
     FlexibleTask.mk "long" "Long" 200 1 "work";
     FlexibleTask.mk "also" "Also long" 200 2 "work"]
    0.

(** * Properties *)

(** ** The outcome monad *)

Lemma bind_Return {A B : Type} (c : outcome A) (k : A -> outcome B) (b : B) :
  bind c k = Return b -> exists a, c = Return a /\ k a = Return b.
Proof.
  destruct c as [a|e]; simpl; intros H; [eauto | discriminate].
Qed.

Lemma mapM_pure {A B : Type} (f : A -> outcome B) (g : A -> B) (l : list A) :
  Forall (fun x => f x = Return (g x)) l -> mapM f l = Return (map g l).
Proof.
  induction 1 as [|x l Hx _ IH]; simpl; [reflexivity|].
  now rewrite Hx, IH.
Qed.

(** ** The stable sort *)

Section StableSortFacts.
Context {A : Type} (key_le : A -> A -> bool).

Lemma insert_sorted_perm (x : A) (l : list A) :
  Permutation (insert_sorted key_le x l) (x :: l).
Proof.
  induction l as [|y l IH]; simpl; [reflexivity|].
  destruct (key_le x y); [reflexivity|].
  rewrite IH. apply perm_swap.
Qed.

Lemma sorted_perm (l : list A) : Permutation (sorted key_le l) l.
Proof.
  induction l as [|x l IH]; simpl; [reflexivity|].
  rewrite insert_sorted_perm. now constructor.
Qed.

Lemma sorted_In (l : list A) (x : A) : In x (sorted key_le l) <-> In x l.
Proof.
  split; apply Permutation_in; [|symmetry]; apply sorted_perm.
Qed.

Hypothesis key_le_total : forall x y, key_le x y = false -> key_le y x = true.

Lemma insert_sorted_Sorted (x : A) (l : list A) :
  Sorted (fun a b => key_le a b = true) l ->
  Sorted (fun a b => key_le a b = true) (insert_sorted key_le x l).
Proof.
  induction 1 as [|y l Hs IH Hhd]; simpl.
  - repeat constructor.
  - destruct (key_le x y) eqn:E.
    + constructor; [now constructor | now constructor].
    + constructor; [exact IH|].
      destruct Hhd as [|z l Hz]; simpl.
      * constructor. now apply key_le_total.
      * destruct (key_le x z); constructor; [now apply key_le_total | exact Hz].
Qed.

Lemma sorted_Sorted (l : list A) :
  Sorted (fun a b => key_le a b = true) (sorted key_le l).
Proof.
  induction l as [|x l IH]; simpl; [constructor|].
  now apply insert_sorted_Sorted.
Qed.
End StableSortFacts.

Lemma insert_sorted_map {A B : Type} (f : A -> B) (leA : A -> A -> bool)
    (leB : B -> B -> bool) (x : A) (l : list A) :
  (forall a b, leA a b = leB (f a) (f b)) ->
  map f (insert_sorted leA x l) = insert_sorted leB (f x) (map f l).
Proof.
  intros H. induction l as [|y l IH]; simpl; [reflexivity|].
  rewrite <- H. destruct (leA x y); simpl; [reflexivity|]. now rewrite IH.
Qed.

Lemma sorted_map {A B : Type} (f : A -> B) (leA : A -> A -> bool)
    (leB : B -> B -> bool) (l : list A) :
  (forall a b, leA a b = leB (f a) (f b)) ->
  map f (sorted leA l) = sorted leB (map f l).
Proof.
  intros H. induction l as [|x l IH]; simpl; [reflexivity|].
  rewrite (insert_sorted_map f leA leB) by exact H. now rewrite IH.
Qed.

Lemma pair_le_total (a b : Z * Z) : pair_le a b = false -> pair_le b a = true.
Proof. unfold pair_le. lia. Qed.

Lemma pair_le_fst (a b : Z * Z) : pair_le a b = true -> fst a <= fst b.
Proof. unfold pair_le. lia. Qed.

Lemma Sorted_weaken {A : Type} (R S : A -> A -> Prop) (l : list A) :
  (forall x y, R x y -> S x y) -> Sorted R l -> Sorted S l.
Proof.
  intros H. induction 1 as [|x l _ IH Hhd]; constructor; [exact IH|].
  destruct Hhd; constructor; auto.
Qed.

(** ** Disjointness is insensitive to the order of a list *)

Lemma disjoint_sym (a b : Interval.t) : disjoint a b -> disjoint b a.
Proof. unfold disjoint. tauto. Qed.

Lemma pairwise_disjoint_perm (l l' : list Interval.t) :
  Permutation l l' -> pairwise_disjoint l -> pairwise_disjoint l'.
Proof.
  unfold pairwise_disjoint.
  induction 1 as [|x l l' Hp IH|x y l|l l' l'' _ IH1 _ IH2]; intros H; auto.
  - inversion H as [|? ? Hx Hl]; subst. constructor; [|auto].
    eapply Permutation_Forall; eauto.
  - inversion H as [|? ? Hy Hl]; subst.
    inversion Hl as [|? ? Hx Hl']; subst.
    inversion Hy as [|? ? Hyx Hyl]; subst.
    constructor; [constructor; [now apply disjoint_sym | assumption]|].
    constructor; assumption.
Qed.

Lemma pairwise_disjoint_app_l (l1 l2 : list Interval.t) :
  pairwise_disjoint (l1 ++ l2) -> pairwise_disjoint l1.
Proof.
  unfold pairwise_disjoint. induction l1 as [|x l1 IH]; simpl; intros H.
  - constructor.
  - inversion H as [|? ? Hx Hl]; subst. constructor; [|auto].
    apply Forall_app in Hx. tauto.
Qed.

Lemma pairwise_disjoint_In (l : list Interval.t) (a b : Interval.t) :
  pairwise_disjoint l -> In a l -> In b l -> a = b \/ disjoint a b.
Proof.
  intros H Ha Hb.
  destruct (ForallOrdPairs_In H a b Ha Hb) as [?|[?|?]]; auto using disjoint_sym.
Qed.

(** A list in which each interval follows the previous one, all of them
    non-empty, is pairwise disjoint; and sorting a pairwise disjoint list of
    non-empty intervals by [(start, end)] puts it in such an order. *)

Lemma chain_lower_bound (x : Interval.t) (l : list Interval.t) :
  Forall proper l -> chain l -> HdRel follows x l ->
  Forall (fun y => Interval.end_ x <= Interval.start y) l.
Proof.
  intros Hp Hc. revert x. induction Hc as [|y l Hc IH Hhd]; intros x Hx.
  - constructor.
  - inversion Hx as [|? ? Hxy]; subst. inversion Hp as [|? ? Hy Hl]; subst.
    constructor; [exact Hxy|].
    specialize (IH Hl y Hhd).
    eapply Forall_impl; [|exact IH]. unfold follows, proper in *. simpl. intros; lia.
Qed.

Lemma chain_pairwise_disjoint (l : list Interval.t) :
  Forall proper l -> chain l -> pairwise_disjoint l.
Proof.
  intros Hp Hc. induction Hc as [|x l Hc IH Hhd].
  - constructor.
  - inversion Hp as [|? ? Hx Hl]; subst. constructor; [|exact (IH Hl)].
    eapply Forall_impl; [|apply (chain_lower_bound x l Hl Hc Hhd)].
    intros y Hy. now left.
Qed.

Lemma sorted_disjoint_chain (l : list Interval.t) :
  Forall proper l -> pairwise_disjoint l -> chain (sorted interval_key_le l).
Proof.
  intros Hp Hd.
  assert (Hperm := sorted_perm interval_key_le l).
  assert (Hp' : Forall proper (sorted interval_key_le l))
    by (eapply Permutation_Forall; [symmetry; exact Hperm | exact Hp]).
  assert (Hd' : pairwise_disjoint (sorted interval_key_le l))
    by (eapply pairwise_disjoint_perm; [symmetry; exact Hperm | exact Hd]).
  assert (Hs : Sorted (fun a b => interval_key_le a b = true) (sorted interval_key_le l)).
  { apply sorted_Sorted. intros x y. apply pair_le_total. }
  clear Hperm Hp Hd. induction Hs as [|x s Hs IH Hhd]; [constructor|].
  inversion Hp' as [|? ? Hx Hl]; subst. inversion Hd' as [|? ? Hxs Hds]; subst.
  constructor; [apply IH; assumption|].
  destruct Hhd as [|y s Hxy]; constructor.
  inversion Hxs as [|? ? Hdis _]; subst. inversion Hl as [|? ? Hy _]; subst.
  apply pair_le_fst in Hxy. simpl in Hxy.
  unfold follows, disjoint, proper in *. lia.
Qed.

(** ** [_merge_intervals] and [_available_gaps] *)

Lemma StronglySorted_snoc {A : Type} (R : A -> A -> Prop) (l : list A) (x : A) :
  StronglySorted R l -> Forall (fun y => R y x) l -> StronglySorted R (l ++ [x]).
Proof.
  induction 1 as [|y l Hs IH Hy]; simpl; intros Hx.
  - repeat constructor.
  - inversion Hx as [|? ? Hyx Hlx]; subst. constructor; [auto|].
    apply Forall_app. split; [exact Hy | now constructor].
Qed.

Lemma covered_by_incl (ms ms' : list Interval.t) (l : Interval.t) :
  (forall m, In m ms -> covered_by ms' m) -> covered_by ms l -> covered_by ms' l.
Proof.
  intros H (m & Hm & Hml). destruct (H m Hm) as (m' & Hm' & Hmm').
  exists m'. split; [exact Hm'|]. unfold covers in *. lia.
Qed.

Lemma covers_refl (m : Interval.t) : covers m m.
Proof. unfold covers. lia. Qed.

(** The merge loop keeps [merged] ordered by start and inside the day, and
    every interval it has consumed lies inside one of the merged ones. *)
Lemma merge_fold_inv (rest : list Interval.t) :
  forall front last front' last',
    fold_left merge_step rest (front, last) = (front', last') ->
    StronglySorted start_le rest -> Forall (start_le last) rest ->
    Forall bounded rest -> bounded last ->
    StronglySorted start_le front -> Forall (fun m => start_le m last) front ->
    Forall bounded front ->
    StronglySorted start_le (front' ++ [last'])
    /\ Forall bounded (front' ++ [last'])
    /\ (forall l, covered_by (front ++ [last]) l \/ In l rest ->
                  covered_by (front' ++ [last']) l).
Proof.
  induction rest as [|cur rest IH]; simpl; intros front last front' last' Hf Hs Hlast Hb Hbl Hsf Hfl Hbf.
  - injection Hf as <- <-. split; [|split].
    + now apply StronglySorted_snoc.
    + apply Forall_app. split; [exact Hbf | now constructor].
    + intros l [H|[]]. exact H.
  - inversion Hs as [|? ? Hs' Hcur]; subst.
    inversion Hlast as [|? ? Hlc Hlast']; subst.
    inversion Hb as [|? ? Hbc Hb']; subst.
    destruct (Interval.start cur <=? Interval.end_ last) eqn:E.
    + apply IH in Hf; auto.
      * destruct Hf as (H1 & H2 & H3). split; [exact H1|]. split; [exact H2|].
        intros l Hl. apply H3.
        assert (Hold : forall m, In m (front ++ [last]) ->
                  covered_by (front ++ [Interval.mk (Interval.start last)
                     (Z.max (Interval.end_ last) (Interval.end_ cur))]) m).
        { intros m Hm. apply in_app_or in Hm. destruct Hm as [Hm|[<-|[]]].
          - exists m. split; [apply in_or_app; now left | apply covers_refl].
          - eexists. split; [apply in_or_app; right; now left|].
            unfold covers. simpl. lia. }
        destruct Hl as [Hl|[<-|Hl]].
        -- left. eapply covered_by_incl; eauto.
        -- left. eexists. split; [apply in_or_app; right; now left|].
           unfold covers, start_le in *. simpl. lia.
        -- now right.
      * unfold bounded, start_le in *. simpl. lia.
    + apply IH in Hf; auto.
      * destruct Hf as (H1 & H2 & H3). split; [exact H1|]. split; [exact H2|].
        intros l Hl. apply H3.
        destruct Hl as [Hl|[<-|Hl]].
        -- left. eapply covered_by_incl; [|exact Hl].
           intros m Hm. exists m. split; [|apply covers_refl].
           apply in_or_app. now left.
        -- left. exists cur. split; [apply in_or_app; right; now left | apply covers_refl].
        -- now right.
      * now apply StronglySorted_snoc.
      * apply Forall_app. split.
        -- eapply Forall_impl; [|exact Hfl]. unfold start_le in *. simpl. intros; lia.
        -- constructor; [exact Hlc | constructor].
      * apply Forall_app. split; [exact Hbf | now constructor].
Qed.

Lemma start_le_trans : Relation_Definitions.transitive _ start_le.
Proof. unfold start_le. intros x y z. lia. Qed.

Lemma sorted_start_le (l : list Interval.t) :
  StronglySorted start_le (sorted interval_key_le l).
Proof.
  apply Sorted_StronglySorted; [exact start_le_trans|].
  eapply Sorted_weaken; [|apply sorted_Sorted; intros x y; apply pair_le_total].
  intros x y H. apply pair_le_fst in H. exact H.
Qed.

Lemma merge_intervals_spec (intervals : list Interval.t) :
  Forall bounded intervals ->
  StronglySorted start_le (_merge_intervals intervals)
  /\ Forall bounded (_merge_intervals intervals)
  /\ Forall (covered_by (_merge_intervals intervals)) intervals.
Proof.
  intros Hb. unfold _merge_intervals.
  assert (Hperm := sorted_perm interval_key_le intervals).
  assert (Hs := sorted_start_le intervals).
  assert (Hb' : Forall bounded (sorted interval_key_le intervals))
    by (eapply Permutation_Forall; [symmetry; exact Hperm | exact Hb]).
  destruct (sorted interval_key_le intervals) as [|first rest] eqn:E.
  - apply Permutation_nil in Hperm. subst. repeat constructor.
  - destruct (fold_left merge_step rest ([], first)) as [front last] eqn:F.
    inversion Hs as [|? ? Hs' Hfirst]; subst.
    inversion Hb' as [|? ? Hbf Hbr]; subst.
    apply merge_fold_inv in F;
      [|assumption|assumption|assumption|assumption|constructor|constructor|constructor].
    destruct F as (H1 & H2 & H3). split; [exact H1|]. split; [exact H2|].
    apply Forall_forall. intros l Hl. apply H3.
    apply (Permutation_in _ (Permutation_sym Hperm)) in Hl. destruct Hl as [<-|Hl].
    + left. exists first. split; [now left | apply covers_refl].
    + now right.
Qed.

(** The walk over the merged regions. *)
Lemma gap_fold_inv (merged : list Interval.t) :
  forall gaps0 cursor gaps1 cursor1,
    fold_left gap_step merged (gaps0, cursor) = (gaps1, cursor1) ->
    0 <= cursor -> Forall bounded merged -> StronglySorted start_le merged ->
    exists gaps,
      gaps1 = gaps0 ++ gaps
      /\ cursor <= cursor1
      /\ Forall (fun m => Interval.end_ m <= cursor1) merged
      /\ Forall (fun g => proper g /\ cursor <= Interval.start g
                          /\ Interval.end_ g <= cursor1) gaps
      /\ pairwise_disjoint gaps
      /\ Forall (fun g => Forall (disjoint g) merged) gaps.
Proof.
  induction merged as [|m merged IH]; simpl; intros gaps0 cursor gaps1 cursor1 Hf Hc Hb Hs.
  - injection Hf as <- <-. exists []. rewrite app_nil_r.
    repeat split; try constructor; lia.
  - inversion Hb as [|? ? Hbm Hb']; subst. inversion Hs as [|? ? Hs' Hm]; subst.
    apply IH in Hf; [|lia|assumption|assumption].
    destruct Hf as (gaps & -> & Hcc & Hends & Hg & Hpd & Hdis).
    assert (Hrest : Forall (fun g => Interval.end_ m <= Interval.start g) gaps).
    { eapply Forall_impl; [|exact Hg]. unfold proper. simpl. intros; lia. }
    assert (Hdm : Forall (fun g => Forall (disjoint g) (m :: merged)) gaps).
    { apply Forall_forall. intros g Hgin. constructor.
      - right. rewrite Forall_forall in Hrest. now apply Hrest.
      - rewrite Forall_forall in Hdis. now apply Hdis. }
    destruct (cursor <? Interval.start m) eqn:E.
    + exists (Interval.mk cursor (Interval.start m) :: gaps).
      split; [now rewrite <- app_assoc|].
      split; [lia|]. split; [constructor; [lia|exact Hends]|].
      split; [|split].
      * constructor.
        -- unfold proper, bounded in *. simpl. lia.
        -- eapply Forall_impl; [|exact Hg]. unfold proper. simpl. intros; lia.
      * constructor; [|exact Hpd].
        eapply Forall_impl; [|exact Hg]. intros g Hgg. left. simpl.
        unfold bounded, proper in *. lia.
      * constructor; [|exact Hdm]. constructor.
        -- left. simpl. lia.
        -- eapply Forall_impl; [|exact Hm]. intros m' Hm'. left. exact Hm'.
    + exists gaps. split; [reflexivity|]. split; [lia|].
      split; [constructor; [lia|exact Hends]|].
      split; [|split]; [|exact Hpd|exact Hdm].
      eapply Forall_impl; [|exact Hg]. unfold proper. simpl. intros; lia.
Qed.

Lemma pairwise_disjoint_snoc (l : list Interval.t) (x : Interval.t) :
  pairwise_disjoint l -> Forall (fun y => disjoint y x) l -> pairwise_disjoint (l ++ [x]).
Proof.
  intros Hl Hx. apply (pairwise_disjoint_perm (x :: l)).
  - apply Permutation_cons_append.
  - constructor; [|exact Hl].
    eapply Forall_impl; [|exact Hx]. intros; now apply disjoint_sym.
Qed.

Lemma buffered_bounded (buf : Z) (b : FixedBlock.t) :
  0 <= buf -> FixedBlock.valid b = true -> bounded (buffered_interval buf b).
Proof.
  unfold FixedBlock.valid, bounded, buffered_interval. simpl.
  intros Hb Hv. repeat (apply andb_prop in Hv; destruct Hv as [Hv ?]).
  unfold MINUTES_PER_DAY in *. lia.
Qed.

(** The gap list: non-empty intervals inside the day, pairwise disjoint,
    and disjoint from every buffered fixed block. *)
Lemma available_gaps_spec (fixed_blocks : list FixedBlock.t) (buf : Z) :
  0 <= buf -> forallb FixedBlock.valid fixed_blocks = true ->
  let gaps := _available_gaps fixed_blocks buf in
  Forall proper gaps
  /\ pairwise_disjoint gaps
  /\ Forall (fun g => Forall (disjoint g) (map (buffered_interval buf) fixed_blocks)) gaps.
Proof.
  intros Hbuf Hv gaps. subst gaps. unfold _available_gaps.
  destruct fixed_blocks as [|b0 bs] eqn:Eb.
  - repeat split; repeat constructor; unfold MINUTES_PER_DAY; simpl; lia.
  - rewrite <- Eb in *. clear Eb b0 bs.
    set (buffered := map (buffered_interval buf) fixed_blocks).
    assert (Hbb : Forall bounded buffered).
    { apply Forall_map, Forall_forall. intros b Hb. apply buffered_bounded; [exact Hbuf|].
      rewrite forallb_forall in Hv. now apply Hv. }
    destruct (merge_intervals_spec buffered Hbb) as (Hs & Hbm & Hcov).
    destruct (fold_left gap_step (_merge_intervals buffered) ([], 0)) as [gaps cursor] eqn:F.
    apply gap_fold_inv in F; [|lia|exact Hbm|exact Hs].
    destruct F as (gaps' & -> & Hc & Hends & Hg & Hpd & Hdis). simpl.
    assert (Hdb : forall g, Forall (disjoint g) (_merge_intervals buffered) ->
                            Forall (disjoint g) buffered).
    { intros g Hgm. apply Forall_forall. intros l Hl.
      rewrite Forall_forall in Hcov. destruct (Hcov l Hl) as (m & Hm & Hml).
      rewrite Forall_forall in Hgm. specialize (Hgm m Hm).
      unfold disjoint, covers in *. lia. }
    assert (H1 : Forall proper gaps') by (eapply Forall_impl; [|exact Hg]; simpl; tauto).
    assert (H3 : Forall (fun g => Forall (disjoint g) buffered) gaps')
      by (eapply Forall_impl; [|exact Hdis]; exact Hdb).
    destruct (cursor <? MINUTES_PER_DAY) eqn:E; [|now repeat split].
    split; [|split].
    + apply Forall_app. split; [exact H1|]. constructor; [|constructor].
      unfold proper. simpl. lia.
    + apply pairwise_disjoint_snoc; [exact Hpd|].
      eapply Forall_impl; [|exact Hg]. intros g Hgg. left. unfold proper in *. simpl. lia.
    + apply Forall_app. split; [exact H3|]. constructor; [|constructor].
      apply Hdb. eapply Forall_impl; [|exact Hends]. intros m Hm. right. simpl in *. lia.
Qed.

(** ** [_largest_fitting_gap_index] and [pop] *)

Lemma max_by_first {A : Type} (key : A -> Z) (l : list A) :
  forall p1 best p2,
    Forall (fun y => key y < key best) p1 ->
    Forall (fun y => key y <= key best) p2 ->
    exists l1 l2,
      p1 ++ best :: p2 ++ l = l1 ++ max_by key best l :: l2
      /\ Forall (fun y => key y < key (max_by key best l)) l1
      /\ Forall (fun y => key y <= key (max_by key best l)) l2.
Proof.
  unfold max_by. induction l as [|y l IH]; simpl; intros p1 best p2 H1 H2.
  - exists p1, p2. now rewrite app_nil_r.
  - destruct (key best <? key y) eqn:E.
    + destruct (IH (p1 ++ best :: p2) y []) as (l1 & l2 & Heq & Hl1 & Hl2).
      * apply Forall_app. split; [|constructor].
        -- eapply Forall_impl; [|exact H1]. simpl. intros; lia.
        -- lia.
        -- eapply Forall_impl; [|exact H2]. simpl. intros; lia.
      * constructor.
      * exists l1, l2. split; [|tauto]. rewrite <- Heq, <- app_assoc. reflexivity.
    + destruct (IH p1 best (p2 ++ [y])) as (l1 & l2 & Heq & Hl1 & Hl2).
      * exact H1.
      * apply Forall_app. split; [exact H2|]. constructor; [lia|constructor].
      * exists l1, l2. split; [|tauto]. rewrite <- Heq, <- app_assoc. reflexivity.
Qed.

Lemma fitting_from_cons (n : nat) (g : Interval.t) (gaps : list Interval.t) (d : Z) :
  fitting_from n (g :: gaps) d =
  if d <=? Interval.duration g
  then (n, Interval.duration g) :: fitting_from (S n) gaps d
  else fitting_from (S n) gaps d.
Proof.
  unfold fitting_from. simpl. now destruct (d <=? Interval.duration g).
Qed.

Lemma fitting_from_In (gaps : list Interval.t) (d : Z) :
  forall n i d',
    In (i, d') (fitting_from n gaps d) <->
    (n <= i)%nat /\ exists g, nth_error gaps (i - n) = Some g
                              /\ d' = Interval.duration g /\ d <= d'.
Proof.
  induction gaps as [|g gaps IH]; intros n i d'.
  - simpl. split; [tauto|]. intros (_ & g & H & _). now destruct (i - n)%nat.
  - rewrite fitting_from_cons.
    assert (Hrest : In (i, d') (fitting_from (S n) gaps d) <->
              (n < i)%nat /\ exists g', nth_error (g :: gaps) (i - n) = Some g'
                                        /\ d' = Interval.duration g' /\ d <= d').
    { rewrite IH. split.
      - intros (Hi & g' & Hn & Hd). split; [lia|]. exists g'. split; [|exact Hd].
        replace (i - n)%nat with (S (i - S n)) by lia. exact Hn.
      - intros (Hi & g' & Hn & Hd). split; [lia|]. exists g'. split; [|exact Hd].
        replace (i - n)%nat with (S (i - S n)) in Hn by lia. exact Hn. }
    destruct (d <=? Interval.duration g) eqn:E; simpl; rewrite Hrest; split.
    + intros [H|(Hi & H)].
      * injection H as <- <-. split; [lia|]. exists g. rewrite Nat.sub_diag. simpl.
        repeat split. lia.
      * split; [lia | exact H].
    + intros (Hi & g' & Hn & Hd). destruct (Nat.eq_dec n i) as [<-|Hne].
      * left. rewrite Nat.sub_diag in Hn. simpl in Hn. injection Hn as <-.
        now destruct Hd as [-> _].
      * right. split; [lia|]. now exists g'.
    + intros (Hi & H). split; [lia | exact H].
    + intros (Hi & g' & Hn & Hd). split; [|now exists g'].
      destruct (Nat.eq_dec n i) as [<-|Hne]; [|lia].
      rewrite Nat.sub_diag in Hn. simpl in Hn. injection Hn as <-. lia.
Qed.

Lemma fitting_from_sorted (gaps : list Interval.t) (d : Z) :
  forall n, StronglySorted index_lt (fitting_from n gaps d).
Proof.
  induction gaps as [|g gaps IH]; intros n; [constructor|].
  rewrite fitting_from_cons. destruct (d <=? Interval.duration g); [|apply IH].
  constructor; [apply IH|]. apply Forall_forall. intros [i d'] Hin.
  apply fitting_from_In in Hin. unfold index_lt. simpl. lia.
Qed.

Lemma StronglySorted_middle {A : Type} (R : A -> A -> Prop) (l1 l2 : list A) (x : A) :
  StronglySorted R (l1 ++ x :: l2) ->
  Forall (fun y => R y x) l1 /\ Forall (R x) l2.
Proof.
  induction l1 as [|y l1 IH]; simpl; intros H; inversion H as [|? ? Hs Hy]; subst.
  - split; [constructor | exact Hy].
  - destruct (IH Hs) as [H1 H2]. split; [|exact H2]. constructor; [|exact H1].
    rewrite Forall_forall in Hy. apply Hy. apply in_or_app. right. now left.
Qed.

(** What [_largest_fitting_gap_index] returns: [None] exactly when no gap
    is long enough; otherwise the position of a gap that is long enough, at
    least as long as every gap of the pool, and strictly longer than every
    gap before it in the pool. *)
Lemma largest_fitting_gap_index_spec (gaps : list Interval.t) (d : Z) :
  match _largest_fitting_gap_index gaps d with
  | None => Forall (fun g => Interval.duration g < d) gaps
  | Some i =>
      exists gap l1 l2,
        gaps = l1 ++ gap :: l2 /\ List.length l1 = i
        /\ d <= Interval.duration gap
        /\ Forall (fun g => Interval.duration g < Interval.duration gap) l1
        /\ Forall (fun g => Interval.duration g <= Interval.duration gap) l2
  end.
Proof.
  unfold _largest_fitting_gap_index, enumerate.
  change (map _ (filter _ _)) with (fitting_from 0 gaps d).
  assert (Hin := fitting_from_In gaps d 0).
  assert (Hs := fitting_from_sorted gaps d 0).
  destruct (fitting_from 0 gaps d) as [|item items] eqn:E.
  - apply Forall_forall. intros g Hg.
    destruct (Z.lt_ge_cases (Interval.duration g) d) as [|Hge]; [assumption|exfalso].
    apply In_nth_error in Hg. destruct Hg as [i Hi].
    apply (proj2 (Hin i (Interval.duration g))).
    split; [lia|]. exists g. rewrite Nat.sub_0_r. auto.
  - destruct (max_by_first snd items [] item []) as (f1 & f2 & Heq & Hf1 & Hf2);
      [constructor|constructor|].
    simpl in Heq. set (r := max_by snd item items) in *.
    assert (Hr : In (fst r, snd r) (item :: items)).
    { rewrite Heq, <- surjective_pairing. apply in_or_app. right. now left. }
    apply Hin in Hr. destruct Hr as (_ & gap & Hn & Hd & Hfit).
    rewrite Nat.sub_0_r in Hn.
    destruct (nth_error_split _ _ Hn) as (l1 & l2 & Hgaps & Hlen).
    exists gap, l1, l2. rewrite <- Hd.
    split; [exact Hgaps|]. split; [exact Hlen|]. split; [exact Hfit|].
    rewrite Heq in Hs. apply StronglySorted_middle in Hs. destruct Hs as [Hs1 Hs2].
    assert (Hcase : forall j g, nth_error gaps j = Some g -> d <= Interval.duration g ->
              In (j, Interval.duration g) f1 \/ j = fst r \/ In (j, Interval.duration g) f2).
    { intros j g Hj Hg.
      assert (H : In (j, Interval.duration g) (item :: items)).
      { apply Hin. split; [lia|]. exists g. rewrite Nat.sub_0_r. auto. }
      rewrite Heq in H. apply in_app_or in H. destruct H as [H|[H|H]]; auto.
      right; left. now rewrite H. }
    split; apply Forall_forall; intros g Hg.
    + destruct (Z.lt_ge_cases (Interval.duration g) d) as [|Hge]; [lia|].
      apply In_nth_error in Hg. destruct Hg as [j Hj].
      assert (Hlt : (j < List.length l1)%nat) by (apply nth_error_Some; congruence).
      assert (Hj' : nth_error gaps j = Some g) by (rewrite Hgaps, nth_error_app1; auto).
      destruct (Hcase j g Hj' Hge) as [H|[H|H]].
      * rewrite Forall_forall in Hf1. apply (Hf1 _ H).
      * lia.
      * rewrite Forall_forall in Hs2. specialize (Hs2 _ H). unfold index_lt in Hs2.
        simpl in Hs2. lia.
    + destruct (Z.lt_ge_cases (Interval.duration g) d) as [|Hge]; [lia|].
      apply In_nth_error in Hg. destruct Hg as [j Hj].
      assert (Hj' : nth_error gaps (List.length l1 + S j) = Some g).
      { rewrite Hgaps, nth_error_app2 by lia.
        replace (List.length l1 + S j - List.length l1)%nat with (S j) by lia. exact Hj. }
      destruct (Hcase _ g Hj' Hge) as [H|[H|H]].
      * rewrite Forall_forall in Hf1. specialize (Hf1 _ H). simpl in Hf1. lia.
      * lia.
      * rewrite Forall_forall in Hf2. apply (Hf2 _ H).
Qed.

Lemma pop_middle {A : Type} (l1 l2 : list A) (x : A) :
  pop (l1 ++ x :: l2) (List.length l1) = Return (x, l1 ++ l2).
Proof.
  induction l1 as [|y l1 IH]; simpl; [reflexivity|]. now rewrite IH.
Qed.

(** ** One turn of the assignment loop *)

Lemma assign_step_cases (st : assign_state) (task : FlexibleTask.t) :
  exists st', assign_step st task = Return st'
              /\ (rejected st task st' \/ exists gap, placed st task gap st').
Proof.
  unfold assign_step. destruct st as [gaps sched unsched]. simpl.
  assert (H := largest_fitting_gap_index_spec gaps (FlexibleTask.duration_minutes task)).
  destruct (_largest_fitting_gap_index gaps (FlexibleTask.duration_minutes task))
    as [i|] eqn:E.
  - destruct H as (gap & l1 & l2 & Hg & Hlen & Hfit & H1 & H2). subst i gaps.
    rewrite pop_middle. simpl.
    eexists. split; [reflexivity|]. right. exists gap, l1, l2. simpl.
    split; [reflexivity|]. split; [exact E|]. repeat (split; [assumption|]).
    unfold leftover.
    destruct (Interval.start gap + FlexibleTask.duration_minutes task <? Interval.end_ gap);
      [reflexivity | now rewrite app_nil_r].
  - eexists. split; [reflexivity|]. left. split; [exact H | reflexivity].
Qed.

(** ** The invariant of the assignment loop *)

Lemma separated_perm (reserved l l' : list Interval.t) :
  Permutation l l' -> separated reserved l -> separated reserved l'.
Proof.
  intros Hp (H1 & H2 & H3). split; [|split].
  - eapply Permutation_Forall; eauto.
  - eapply pairwise_disjoint_perm; eauto.
  - eapply Permutation_Forall; eauto.
Qed.

Lemma within_disjoint (x gap y : Interval.t) :
  within x gap -> disjoint gap y -> disjoint x y.
Proof. unfold within, disjoint. lia. Qed.

Lemma separated_cut (reserved rest : list Interval.t) (gap : Interval.t) (d : Z) :
  0 < d -> d <= Interval.duration gap ->
  separated reserved (gap :: rest) ->
  separated reserved
    (Interval.mk (Interval.start gap) (Interval.start gap + d) :: leftover gap d ++ rest).
Proof.
  intros Hd Hfit (H1 & H2 & H3).
  inversion H1 as [|? ? Hg H1']; subst. inversion H2 as [|? ? Hgr H2']; subst.
  inversion H3 as [|? ? Hgf H3']; subst.
  set (t := Interval.mk (Interval.start gap) (Interval.start gap + d)).
  assert (Ht : within t gap) by (unfold within, Interval.duration in *; simpl; lia).
  assert (Hsub : forall x, within x gap ->
            Forall (disjoint x) rest /\ Forall (disjoint x) reserved).
  { intros x Hx. split.
    - eapply Forall_impl; [|exact Hgr]. intros y Hy. eapply within_disjoint; eauto.
    - eapply Forall_impl; [|exact Hgf]. intros y Hy. eapply within_disjoint; eauto. }
  unfold leftover. unfold proper, Interval.duration in Hg, Hfit.
  destruct (Interval.start gap + d <? Interval.end_ gap) eqn:E; simpl.
  - set (r := Interval.mk (Interval.start gap + d) (Interval.end_ gap)).
    assert (Hr : within r gap) by (unfold within; simpl; lia).
    split; [|split].
    + constructor; [unfold proper; simpl; lia|].
      constructor; [unfold proper; simpl; lia | exact H1'].
    + constructor; [constructor; [left; simpl; lia | apply (Hsub t Ht)]|].
      constructor; [apply (Hsub r Hr) | exact H2'].
    + constructor; [apply (Hsub t Ht)|]. constructor; [apply (Hsub r Hr) | exact H3'].
  - split; [|split].
    + constructor; [unfold proper; simpl; lia | exact H1'].
    + constructor; [apply (Hsub t Ht) | exact H2'].
    + constructor; [apply (Hsub t Ht) | exact H3'].
Qed.

Lemma placed_regions (st st' : assign_state) (task : FlexibleTask.t) (gap : Interval.t) :
  placed st task gap st' ->
  exists rest,
    Permutation (regions st) (gap :: rest)
    /\ Permutation (regions st')
         (Interval.mk (Interval.start gap)
                      (Interval.start gap + FlexibleTask.duration_minutes task)
          :: leftover gap (FlexibleTask.duration_minutes task) ++ rest).
Proof.
  intros (l1 & l2 & Hg & _ & _ & _ & _ & ->). unfold regions. rewrite Hg. simpl.
  exists (map task_span (scheduled_tasks st) ++ l1 ++ l2). split.
  - rewrite !app_assoc. symmetry. apply Permutation_middle.
  - rewrite map_app. simpl. rewrite <- app_assoc. simpl.
    etransitivity; [symmetry; apply Permutation_middle|]. constructor.
    rewrite (app_assoc (map task_span (scheduled_tasks st))).
    apply Permutation_app_comm.
Qed.

Lemma assign_step_inv (reserved : list Interval.t) (st st' : assign_state)
    (task : FlexibleTask.t) :
  0 < FlexibleTask.duration_minutes task ->
  inv reserved st -> assign_step st task = Return st' -> inv reserved st'.
Proof.
  intros Hd Hinv Hstep.
  destruct (assign_step_cases st task) as (st2 & Hst2 & Hcase).
  rewrite Hstep in Hst2. injection Hst2 as <-.
  destruct Hcase as [(_ & ->) | (gap & Hp)]; [exact Hinv|].
  destruct (placed_regions _ _ _ _ Hp) as (rest & Hr & Hr').
  destruct Hp as (l1 & l2 & _ & _ & Hfit & _).
  unfold inv in *. eapply separated_perm; [symmetry; exact Hr'|].
  apply separated_cut; [exact Hd | exact Hfit|].
  eapply separated_perm; [exact Hr | exact Hinv].
Qed.

Lemma foldM_app {A S : Type} (f : S -> A -> outcome S) (l1 l2 : list A) (s : S) :
  foldM f (l1 ++ l2) s = (s' <- foldM f l1 s ;; foldM f l2 s').
Proof.
  revert s. induction l1 as [|x l1 IH]; simpl; intros s; [reflexivity|].
  destruct (f s x); simpl; [apply IH | reflexivity].
Qed.

(** The loop never raises. *)
Lemma assign_loop_total (tasks : list FlexibleTask.t) (st : assign_state) :
  exists st', foldM assign_step tasks st = Return st'.
Proof.
  revert st. induction tasks as [|task tasks IH]; simpl; intros st; [eauto|].
  destruct (assign_step_cases st task) as (st1 & -> & _). simpl. apply IH.
Qed.

Lemma assign_loop_inv (reserved : list Interval.t) (tasks : list FlexibleTask.t) :
  forall st st',
    Forall (fun task => 0 < FlexibleTask.duration_minutes task) tasks ->
    inv reserved st -> foldM assign_step tasks st = Return st' -> inv reserved st'.
Proof.
  induction tasks as [|task tasks IH]; simpl; intros st st' Hd Hinv Hrun.
  - now injection Hrun as <-.
  - inversion Hd as [|? ? Hd1 Hd']; subst.
    apply bind_Return in Hrun. destruct Hrun as (st1 & Hstep & Hrun).
    eapply IH; [exact Hd' | | exact Hrun].
    eapply assign_step_inv; eauto.
Qed.

Lemma assign_loop_partition (tasks : list FlexibleTask.t) :
  forall st st',
    foldM assign_step tasks st = Return st' ->
    exists placements turned_down,
      scheduled_tasks st' = scheduled_tasks st ++ map bind_at placements
      /\ unscheduled_tasks st' = unscheduled_tasks st ++ turned_down
      /\ Permutation (map fst placements ++ turned_down) tasks.
Proof.
  induction tasks as [|task tasks IH]; simpl; intros st st' Hrun.
  - injection Hrun as <-. exists [], []. now rewrite !app_nil_r.
  - apply bind_Return in Hrun. destruct Hrun as (st1 & Hstep & Hrun).
    destruct (IH _ _ Hrun) as (ps & rs & Hs & Hu & Hperm).
    destruct (assign_step_cases st task) as (st2 & Hst2 & Hcase).
    rewrite Hstep in Hst2. injection Hst2 as <-.
    destruct Hcase as [(_ & ->) | (gap & l1 & l2 & _ & _ & _ & _ & _ & ->)];
      simpl in Hs, Hu.
    + exists ps, (task :: rs). split; [exact Hs|].
      split; [now rewrite Hu, <- app_assoc|].
      etransitivity; [symmetry; apply Permutation_middle | now constructor].
    + exists ((task, Interval.start gap) :: ps), rs.
      split; [now rewrite Hs, <- app_assoc|]. split; [exact Hu|].
      simpl. now constructor.
Qed.

(** ** [_sorted_non_overlapping_fixed_blocks] *)

Lemma check_adjacent_cases (l : list FixedBlock.t) :
  (check_adjacent l = Return tt /\ chain (map block_span l))
  \/ (exists prev curr,
        check_adjacent l = Raise (ValueError (overlap_msg prev curr))
        /\ adjacent_overlap l prev curr).
Proof.
  induction l as [|prev l IH]; [left; split; [reflexivity | constructor]|].
  destruct l as [|curr l]; [left; split; [reflexivity | repeat constructor]|].
  cbn [check_adjacent].
  destruct (FixedBlock.start_minute curr <? FixedBlock.end_minute prev) eqn:E.
  - right. exists prev, curr. split; [reflexivity|].
    exists [], l. split; [reflexivity | lia].
  - destruct IH as [(Hok & Hc) | (p & c & Hraise & l1 & l2 & Hl & Hov)].
    + left. split; [exact Hok|]. simpl. constructor; [exact Hc|].
      constructor. unfold follows. simpl. lia.
    + right. exists p, c. split; [exact Hraise|].
      exists (prev :: l1), l2. split; [simpl; now rewrite Hl | exact Hov].
Qed.

Lemma chain_no_adjacent_overlap (l : list FixedBlock.t) (prev curr : FixedBlock.t) :
  chain (map block_span l) -> ~ adjacent_overlap l prev curr.
Proof.
  intros Hc (l1 & l2 & -> & Hov). revert Hc.
  induction l1 as [|x l1 IH]; simpl; intros Hc; inversion Hc as [|? ? Hc' Hhd]; subst.
  - inversion Hhd as [|? ? Hf]; subst. unfold follows in Hf. simpl in Hf. lia.
  - auto.
Qed.

Lemma valid_block_proper (b : FixedBlock.t) :
  FixedBlock.valid b = true -> proper (block_span b).
Proof.
  unfold FixedBlock.valid, proper. simpl. intros Hv.
  repeat (apply andb_prop in Hv; destruct Hv as [Hv ?]). lia.
Qed.

Lemma valid_blocks_proper (l : list FixedBlock.t) :
  forallb FixedBlock.valid l = true -> Forall proper (map block_span l).
Proof.
  intros Hv. apply Forall_map, Forall_forall. intros b Hb.
  apply valid_block_proper. rewrite forallb_forall in Hv. now apply Hv.
Qed.

Lemma non_overlapping_disjoint (l : list FixedBlock.t) :
  non_overlapping l = true -> pairwise_disjoint (map block_span l).
Proof.
  induction l as [|b l IH]; simpl; intros H; [constructor|].
  apply andb_prop in H. destruct H as [Hb Hl]. constructor; [|exact (IH Hl)].
  apply Forall_map, Forall_forall. intros c Hc.
  rewrite forallb_forall in Hb. specialize (Hb c Hc).
  unfold overlaps in Hb. unfold disjoint. simpl. lia.
Qed.

Lemma block_key_span (a b : FixedBlock.t) :
  block_key_le a b = interval_key_le (block_span a) (block_span b).
Proof. reflexivity. Qed.

(** Valid blocks that do not overlap pass the check, and come out sorted,
    each one starting no earlier than the previous one ends. *)
Lemma sorted_blocks_ok (blocks : list FixedBlock.t) :
  forallb FixedBlock.valid blocks = true -> non_overlapping blocks = true ->
  _sorted_non_overlapping_fixed_blocks blocks = Return (sorted block_key_le blocks)
  /\ chain (map block_span (sorted block_key_le blocks)).
Proof.
  intros Hv Hn.
  assert (Hc : chain (map block_span (sorted block_key_le blocks))).
  { rewrite (sorted_map block_span block_key_le interval_key_le) by apply block_key_span.
    apply sorted_disjoint_chain;
      [now apply valid_blocks_proper | now apply non_overlapping_disjoint]. }
  split; [|exact Hc]. unfold _sorted_non_overlapping_fixed_blocks.
  destruct (check_adjacent_cases (sorted block_key_le blocks))
    as [(-> & _) | (p & c & _ & Hov)]; [reflexivity|].
  now apply chain_no_adjacent_overlap in Hov.
Qed.

Lemma sorted_blocks_valid (blocks : list FixedBlock.t) :
  forallb FixedBlock.valid blocks = true ->
  forallb FixedBlock.valid (sorted block_key_le blocks) = true.
Proof.
  rewrite !forallb_forall. intros H b Hb. apply H. now apply sorted_In in Hb.
Qed.

(** ** [_compose_timeline] *)

Lemma tiles_app (l1 l2 : list TimelineSlot.t) (a b c : Z) :
  tiles a l1 b -> tiles b l2 c -> tiles a (l1 ++ l2) c.
Proof.
  revert a. induction l1 as [|s l1 IH]; simpl; intros a H1 H2.
  - now subst.
  - destruct H1 as (? & ? & ?). eauto.
Qed.

Lemma tiles_le (l : list TimelineSlot.t) (a b : Z) : tiles a l b -> a <= b.
Proof.
  revert a. induction l as [|s l IH]; simpl; intros a H; [lia|].
  destruct H as (? & ? & H). apply IH in H. lia.
Qed.

Lemma proper_slot_valid (s : TimelineSlot.t) :
  proper (slot_span s) -> TimelineSlot.valid s = true.
Proof. unfold proper, TimelineSlot.valid. simpl. lia. Qed.

Lemma valid_slot_bounds (s : TimelineSlot.t) :
  TimelineSlot.valid s = true ->
  0 <= TimelineSlot.start_minute s < MINUTES_PER_DAY
  /\ 0 < TimelineSlot.end_minute s <= MINUTES_PER_DAY.
Proof. unfold TimelineSlot.valid. lia. Qed.

Lemma fixed_slot_of_proper (block : FixedBlock.t) :
  proper (block_span block) -> fixed_slot_of block = Return (fixed_slot_rec block).
Proof.
  intros H. apply (proper_slot_valid (fixed_slot_rec block)) in H.
  unfold fixed_slot_of, TimelineSlot.new, fixed_slot_rec in *. cbv zeta. now rewrite H.
Qed.

Lemma task_slot_of_proper (task : ScheduledTask.t) :
  proper (task_span task) -> task_slot_of task = Return (task_slot_rec task).
Proof.
  intros H. apply (proper_slot_valid (task_slot_rec task)) in H.
  unfold task_slot_of, TimelineSlot.new, task_slot_rec in *. cbv zeta. now rewrite H.
Qed.

Lemma free_slot_of_proper (s e : Z) :
  proper (Interval.mk s e) -> free_slot_of s e = Return (free_slot_rec s e).
Proof.
  intros H. apply (proper_slot_valid (free_slot_rec s e)) in H.
  unfold free_slot_of, TimelineSlot.new, free_slot_rec in *. cbv zeta. now rewrite H.
Qed.

Lemma compose_step_spec (timeline : list TimelineSlot.t) (cursor : Z)
    (slot : TimelineSlot.t) :
  0 <= cursor <= TimelineSlot.start_minute slot -> proper (slot_span slot) ->
  compose_step (timeline, cursor) slot
  = Return (timeline ++ free_before cursor slot ++ [slot], TimelineSlot.end_minute slot).
Proof.
  intros Hc Hp. unfold proper in Hp. simpl in Hp.
  unfold compose_step, free_before.
  replace (Z.max cursor (TimelineSlot.end_minute slot))
    with (TimelineSlot.end_minute slot) by lia.
  destruct (cursor <? TimelineSlot.start_minute slot) eqn:E.
  - rewrite free_slot_of_proper by (unfold proper; simpl; lia). simpl.
    now rewrite <- app_assoc.
  - reflexivity.
Qed.

(** The walk over the occupied slots, when they are non-empty, inside the
    day, and each starts no earlier than the previous one ends. *)
Lemma compose_fold_spec (occupied : list TimelineSlot.t) :
  forall timeline cursor,
    0 <= cursor <= MINUTES_PER_DAY ->
    Forall (fun s => proper (slot_span s)) occupied ->
    Forall (fun s => is_occupied s = true) occupied ->
    chain (map slot_span occupied) ->
    Forall (fun s => cursor <= TimelineSlot.start_minute s) occupied ->
    exists emitted cursor',
      foldM compose_step occupied (timeline, cursor) = Return (timeline ++ emitted, cursor')
      /\ tiles cursor emitted cursor'
      /\ cursor' <= MINUTES_PER_DAY
      /\ filter is_occupied emitted = occupied
      /\ Forall (fun s => proper (slot_span s)) emitted.
Proof.
  induction occupied as [|slot occupied IH]; intros timeline cursor Hc Hp Ho Hch Hlb.
  - exists [], cursor. simpl. rewrite app_nil_r. repeat split; auto; lia.
  - inversion Hp as [|? ? Hps Hp']; subst. inversion Ho as [|? ? Hos Ho']; subst.
    inversion Hlb as [|? ? Hcs _]; subst.
    simpl in Hch. inversion Hch as [|? ? Hch' Hhd]; subst.
    assert (Hnext : Forall (fun s => TimelineSlot.end_minute slot
                                     <= TimelineSlot.start_minute s) occupied).
    { assert (H : Forall proper (map slot_span occupied)) by (apply Forall_map; exact Hp').
      apply (chain_lower_bound _ _ H Hch') in Hhd. rewrite Forall_forall in Hhd.
      apply Forall_forall. intros s Hs. apply (Hhd (slot_span s)). now apply in_map. }
    assert (Hps' := Hps). unfold proper in Hps'. simpl in Hps'.
    cbn [foldM]. rewrite compose_step_spec by (auto; lia). cbn [bind].
    destruct (IH (timeline ++ free_before cursor slot ++ [slot])
                 (TimelineSlot.end_minute slot))
      as (emitted & cursor' & Hrun & Ht & Hc' & Hf & Hpe); auto; [lia|].
    exists (free_before cursor slot ++ slot :: emitted), cursor'.
    split; [rewrite Hrun; now rewrite <- !app_assoc|].
    unfold free_before. destruct (cursor <? TimelineSlot.start_minute slot) eqn:E; simpl.
    + split; [repeat split; auto; lia|]. split; [exact Hc'|].
      rewrite Hos, Hf. split; [reflexivity|].
      constructor; [unfold proper; simpl; lia|]. now constructor.
    + split; [repeat split; auto; lia|]. split; [exact Hc'|].
      rewrite Hos, Hf. split; [reflexivity|]. now constructor.
Qed.

Lemma pairwise_disjoint_app (l1 l2 : list Interval.t) :
  pairwise_disjoint l1 -> pairwise_disjoint l2 ->
  Forall (fun x => Forall (disjoint x) l2) l1 ->
  pairwise_disjoint (l1 ++ l2).
Proof.
  intros H1 H2 H12. induction H1 as [|x l1 Hx Hl1 IH]; simpl; [exact H2|].
  inversion H12 as [|? ? Hx2 H12']; subst.
  constructor; [apply Forall_app; now split | now apply IH].
Qed.

Lemma slot_key_span (a b : TimelineSlot.t) :
  slot_key_le a b = interval_key_le (slot_span a) (slot_span b).
Proof. reflexivity. Qed.

Lemma occupied_slots_span (fixed_blocks : list FixedBlock.t)
    (scheduled : list ScheduledTask.t) :
  map slot_span (occupied_slots fixed_blocks scheduled)
  = map block_span fixed_blocks ++ map task_span scheduled.
Proof.
  unfold occupied_slots. rewrite map_app, !map_map. reflexivity.
Qed.

(** [_compose_timeline] on disjoint, non-empty occupied intervals: it
    returns, the timeline tiles the day, and its slots other than the free
    ones are the occupied slots in sorted order. *)
Lemma compose_timeline_spec (fixed_blocks : list FixedBlock.t)
    (scheduled : list ScheduledTask.t) :
  Forall proper (map block_span fixed_blocks ++ map task_span scheduled) ->
  pairwise_disjoint (map block_span fixed_blocks ++ map task_span scheduled) ->
  exists timeline,
    _compose_timeline fixed_blocks scheduled = Return timeline
    /\ tiles 0 timeline MINUTES_PER_DAY
    /\ filter is_occupied timeline
       = sorted slot_key_le (occupied_slots fixed_blocks scheduled)
    /\ Forall (fun s => proper (slot_span s)) timeline.
Proof.
  intros Hp Hd. unfold _compose_timeline.
  assert (Hp2 := Hp). apply Forall_app in Hp2. destruct Hp2 as [Hpf Hpt].
  rewrite (mapM_pure fixed_slot_of fixed_slot_rec).
  2:{ rewrite Forall_map in Hpf. eapply Forall_impl; [|exact Hpf].
      intros b Hb. now apply fixed_slot_of_proper. }
  rewrite (mapM_pure task_slot_of task_slot_rec).
  2:{ rewrite Forall_map in Hpt. eapply Forall_impl; [|exact Hpt].
      intros b Hb. now apply task_slot_of_proper. }
  cbn [bind]. fold (occupied_slots fixed_blocks scheduled).
  set (occ := sorted slot_key_le (occupied_slots fixed_blocks scheduled)).
  assert (Hperm : Permutation occ (occupied_slots fixed_blocks scheduled))
    by apply sorted_perm.
  assert (Hspan : map slot_span occ
                  = sorted interval_key_le (map block_span fixed_blocks
                                              ++ map task_span scheduled)).
  { unfold occ. rewrite (sorted_map slot_span slot_key_le interval_key_le)
      by apply slot_key_span. now rewrite occupied_slots_span. }
  assert (Hpo : Forall (fun s => proper (slot_span s)) occ).
  { eapply Permutation_Forall; [symmetry; exact Hperm|].
    rewrite <- Forall_map, occupied_slots_span. exact Hp. }
  assert (Hoo : Forall (fun s => is_occupied s = true) occ).
  { eapply Permutation_Forall; [symmetry; exact Hperm|].
    unfold occupied_slots. apply Forall_app. split; apply Forall_map, Forall_forall;
      reflexivity. }
  assert (Hch : chain (map slot_span occ))
    by (rewrite Hspan; now apply sorted_disjoint_chain).
  assert (Hlb : Forall (fun s => 0 <= TimelineSlot.start_minute s) occ).
  { eapply Forall_impl; [|exact Hpo]. unfold proper. simpl. tauto. }
  destruct (compose_fold_spec occ [] 0) as (emitted & cursor & Hrun & Ht & Hc & Hf & Hpe);
    auto; [unfold MINUTES_PER_DAY; lia|].
  rewrite Hrun. cbn [bind app].
  assert (H0 := tiles_le _ _ _ Ht).
  destruct (cursor <? MINUTES_PER_DAY) eqn:E.
  - rewrite free_slot_of_proper by (unfold proper; simpl; lia). cbn [bind].
    eexists. split; [reflexivity|]. split; [|split].
    + eapply tiles_app; [exact Ht|]. simpl. repeat split; lia.
    + rewrite filter_app. simpl. now rewrite app_nil_r.
    + apply Forall_app. split; [exact Hpe|]. constructor; [|constructor].
      unfold proper. simpl. lia.
  - eexists. split; [reflexivity|]. split; [|split]; [|exact Hf|exact Hpe].
    replace MINUTES_PER_DAY with cursor by lia. exact Ht.
Qed.

(** ** [build_day_timeline] on a valid request *)

Lemma valid_request_parts (request : DayScheduleRequest.t) :
  valid_request request = true ->
  forallb FixedBlock.valid (DayScheduleRequest.fixed_blocks request) = true
  /\ Forall (fun task => 0 < FlexibleTask.duration_minutes task)
            (DayScheduleRequest.flexible_tasks request)
  /\ 0 <= DayScheduleRequest.transition_buffer_minutes request
  /\ non_overlapping (DayScheduleRequest.fixed_blocks request) = true.
Proof.
  unfold valid_request, DayScheduleRequest.valid. intros H.
  repeat (apply andb_prop in H; destruct H as [H ?]).
  split; [assumption|]. split; [|split; [lia | assumption]].
  apply Forall_forall. intros task Ht.
  match goal with Hf : forallb FlexibleTask.valid _ = true |- _ =>
    rewrite forallb_forall in Hf; specialize (Hf task Ht);
    unfold FlexibleTask.valid in Hf;
    repeat (apply andb_prop in Hf; destruct Hf as [Hf ?]) end.
  lia.
Qed.

Lemma loop_start_inv (request : DayScheduleRequest.t) :
  valid_request request = true -> inv (reserved request) (loop_start request).
Proof.
  intros Hv. destruct (valid_request_parts _ Hv) as (Hb & _ & Hbuf & _).
  unfold inv, regions, loop_start, reserved. simpl.
  apply available_gaps_spec; [exact Hbuf | now apply sorted_blocks_valid].
Qed.

Lemma prioritized_positive (request : DayScheduleRequest.t) :
  valid_request request = true ->
  Forall (fun task => 0 < FlexibleTask.duration_minutes task) (prioritized request).
Proof.
  intros Hv. destruct (valid_request_parts _ Hv) as (_ & Hd & _).
  eapply Permutation_Forall; [symmetry; apply sorted_perm | exact Hd].
Qed.

Lemma buffered_covers (buf : Z) (b : FixedBlock.t) :
  0 <= buf -> FixedBlock.valid b = true ->
  covers (buffered_interval buf b) (block_span b).
Proof.
  intros Hbuf Hv. apply valid_block_proper in Hv.
  unfold covers, buffered_interval, proper, block_span in *.
  cbn [Interval.start Interval.end_] in *. unfold MINUTES_PER_DAY in *. lia.
Qed.

Lemma covers_disjoint (x m l : Interval.t) : covers m l -> disjoint x m -> disjoint x l.
Proof. unfold covers, disjoint. lia. Qed.

(** Every state the loop reaches on a valid request satisfies the invariant. *)
Lemma reachable_inv (request : DayScheduleRequest.t) (done rest : list FlexibleTask.t) :
  valid_request request = true -> prioritized request = done ++ rest ->
  exists st, foldM assign_step done (loop_start request) = Return st
             /\ inv (reserved request) st.
Proof.
  intros Hv Hsplit. destruct (assign_loop_total done (loop_start request)) as [st Hst].
  exists st. split; [exact Hst|].
  eapply assign_loop_inv; [| apply loop_start_inv; exact Hv | exact Hst].
  assert (H := prioritized_positive _ Hv). rewrite Hsplit in H.
  apply Forall_app in H. tauto.
Qed.

Lemma separated_scheduled (request : DayScheduleRequest.t) (st : assign_state) :
  valid_request request = true -> inv (reserved request) st ->
  let blocks := sorted block_key_le (DayScheduleRequest.fixed_blocks request) in
  Forall proper (map task_span (scheduled_tasks st))
  /\ pairwise_disjoint (map task_span (scheduled_tasks st))
  /\ Forall (fun x => Forall (disjoint x) (reserved request))
            (map task_span (scheduled_tasks st))
  /\ Forall (fun x => Forall (disjoint x) (map block_span blocks))
            (map task_span (scheduled_tasks st)).
Proof.
  intros Hv (H1 & H2 & H3) blocks. unfold regions in *.
  apply Forall_app in H1. destruct H1 as [H1 _].
  apply pairwise_disjoint_app_l in H2.
  apply Forall_app in H3. destruct H3 as [H3 _].
  repeat (split; [assumption|]).
  destruct (valid_request_parts _ Hv) as (Hb & _ & Hbuf & _).
  apply sorted_blocks_valid in Hb. rewrite forallb_forall in Hb.
  eapply Forall_impl; [|exact H3]. intros x Hx.
  apply Forall_map, Forall_forall. intros b Hbin.
  apply (covers_disjoint x (buffered_interval
           (DayScheduleRequest.transition_buffer_minutes request) b)).
  - apply buffered_covers; auto.
  - rewrite Forall_forall in Hx. apply Hx. unfold reserved. now apply in_map.
Qed.

Lemma valid_request_runs (request : DayScheduleRequest.t) :
  valid_request request = true -> exists st response, run request st response.
Proof.
  intros Hv. destruct (valid_request_parts _ Hv) as (Hb & _ & Hbuf & Hn).
  destruct (reachable_inv request (prioritized request) [] Hv) as (st & Hst & Hinv);
    [now rewrite app_nil_r|].
  destruct (sorted_blocks_ok _ Hb Hn) as (Hcheck & Hchain).
  destruct (separated_scheduled _ _ Hv Hinv) as (Hp & Hd & _ & Hdb).
  set (blocks := sorted block_key_le (DayScheduleRequest.fixed_blocks request)) in *.
  assert (Hpb : Forall proper (map block_span blocks))
    by now apply valid_blocks_proper, sorted_blocks_valid.
  destruct (compose_timeline_spec blocks (scheduled_tasks st))
    as (timeline & Hcomp & Htiles & Hocc & Hprop).
  { apply Forall_app. now split. }
  { apply pairwise_disjoint_app; [now apply chain_pairwise_disjoint | exact Hd|].
    apply Forall_forall. intros b Hbin. apply Forall_forall. intros x Hx.
    apply disjoint_sym. rewrite Forall_forall in Hdb. specialize (Hdb x Hx).
    rewrite Forall_forall in Hdb. now apply Hdb. }
  exists st. eexists. split; try eassumption.
  - unfold build_day_timeline. rewrite Hcheck. cbn [bind].
    fold (prioritized request). fold blocks.
    change (initial_state _) with (loop_start request).
    rewrite Hst. cbn [bind]. rewrite Hcomp. cbn [bind]. reflexivity.
  - reflexivity.
  - reflexivity.
  - reflexivity.
  - exact Htiles.
  - exact Hocc.
  - exact Hprop.
Qed.

(** ** Consequences of tiling *)

Lemma tiles_chain (l : list TimelineSlot.t) (lo hi : Z) :
  tiles lo l hi -> chain (map slot_span l).
Proof.
  revert lo. induction l as [|s l IH]; simpl; intros lo H; [constructor|].
  destruct H as (_ & _ & H). constructor; [exact (IH _ H)|].
  destruct l as [|s' l]; simpl in *; constructor.
  destruct H as (H & _). unfold follows. simpl. lia.
Qed.

Lemma tiles_cover (l : list TimelineSlot.t) (lo hi m : Z) :
  tiles lo l hi ->
  (lo <= m < hi <->
   exists s, In s l /\ TimelineSlot.start_minute s <= m < TimelineSlot.end_minute s).
Proof.
  revert lo. induction l as [|s l IH]; simpl; intros lo H.
  - split; [lia | intros (s & [] & _)].
  - destruct H as (Hs & Hlt & H). assert (Hle := tiles_le _ _ _ H).
    specialize (IH _ H). split.
    + intros Hm. destruct (Z.lt_ge_cases m (TimelineSlot.end_minute s)).
      * exists s. split; [now left | lia].
      * destruct (proj1 IH) as (s' & Hin & Hs'); [lia|]. exists s'. auto.
    + intros (s' & [<-|Hin] & Hs'); [lia|].
      assert (TimelineSlot.end_minute s <= m < hi) by (apply IH; eauto). lia.
Qed.

(** * The claims *)

(** C1. For a valid request [build_day_timeline] returns, and the slots of
    its timeline tile the day: the first starts at 0, each starts where the
    previous one ends, the last ends at 1440.  Hence they are pairwise
    non-overlapping, and a minute lies in some slot exactly when it lies in
    [[0, 1440)]. *)
Theorem timeline_partitions_day (request : DayScheduleRequest.t) :
  valid_request request = true ->
  exists response,
    build_day_timeline request = Return response
    /\ tiles 0 (TimelineResponse.timeline response) MINUTES_PER_DAY
    /\ pairwise_disjoint (map slot_span (TimelineResponse.timeline response))
    /\ forall m,
         0 <= m < MINUTES_PER_DAY <->
         exists s, In s (TimelineResponse.timeline response)
                   /\ TimelineSlot.start_minute s <= m < TimelineSlot.end_minute s.
Proof.
  intros Hv. destruct (valid_request_runs _ Hv) as (st & response & Hrun).
  destruct Hrun. exists response. split; [assumption|]. split; [assumption|].
  split.
  - apply chain_pairwise_disjoint.
    + now apply Forall_map.
    + eapply tiles_chain; eassumption.
  - intros m. now apply tiles_cover.
Qed.

Lemma timeline_partitions_day_witness :
  valid_request example_request = true
  /\ exists response,
       build_day_timeline example_request = Return response
       /\ tiles 0 (TimelineResponse.timeline response) MINUTES_PER_DAY
       /\ pairwise_disjoint (map slot_span (TimelineResponse.timeline response))
       /\ forall m,
            0 <= m < MINUTES_PER_DAY <->
            exists s, In s (TimelineResponse.timeline response)
                      /\ TimelineSlot.start_minute s <= m < TimelineSlot.end_minute s.
Proof.
  split; [reflexivity|]. apply (timeline_partitions_day example_request). reflexivity.
Defined.

Lemma scheduled_response_In (request : DayScheduleRequest.t) (st : assign_state)
    (response : TimelineResponse.t) (k : ScheduledTask.t) :
  run request st response ->
  In k (TimelineResponse.scheduled_tasks response) <-> In k (scheduled_tasks st).
Proof.
  intros Hrun. rewrite (run_scheduled _ _ _ Hrun). apply sorted_In.
Qed.

(** C5. For a valid request, the intervals of the scheduled tasks of the
    response are pairwise disjoint, and each is disjoint from the interval
    of every fixed block of the request. *)
Theorem scheduled_tasks_disjoint (request : DayScheduleRequest.t) :
  valid_request request = true ->
  exists response,
    build_day_timeline request = Return response
    /\ pairwise_disjoint (map task_span (TimelineResponse.scheduled_tasks response))
    /\ forall k b,
         In k (TimelineResponse.scheduled_tasks response) ->
         In b (DayScheduleRequest.fixed_blocks request) ->
         disjoint (task_span k) (block_span b).
Proof.
  intros Hv. destruct (valid_request_runs _ Hv) as (st & response & Hrun).
  destruct (separated_scheduled _ _ Hv (run_inv _ _ _ Hrun)) as (_ & Hd & _ & Hb).
  exists response. split; [apply (run_returns _ _ _ Hrun)|]. split.
  - rewrite (run_scheduled _ _ _ Hrun).
    eapply pairwise_disjoint_perm; [|exact Hd].
    apply Permutation_map. symmetry. apply sorted_perm.
  - intros k b Hk Hbin. apply (scheduled_response_In _ _ _ k Hrun) in Hk.
    rewrite Forall_forall in Hb. specialize (Hb _ (in_map task_span _ _ Hk)).
    rewrite Forall_forall in Hb. apply Hb. apply in_map. now apply sorted_In.
Qed.

Lemma scheduled_tasks_disjoint_witness :
  valid_request example_request = true
  /\ exists response,
       build_day_timeline example_request = Return response
       /\ pairwise_disjoint (map task_span (TimelineResponse.scheduled_tasks response))
       /\ forall k b,
            In k (TimelineResponse.scheduled_tasks response) ->
            In b (DayScheduleRequest.fixed_blocks example_request) ->
            disjoint (task_span k) (block_span b).
Proof.
  split; [reflexivity|]. apply (scheduled_tasks_disjoint example_request). reflexivity.
Defined.

(** C9. For a valid request with buffer [b], the interval of every
    scheduled task of the response is disjoint from the buffered interval
    [[max(0, start - b), min(1440, end + b))] of every fixed block. *)
Theorem scheduled_tasks_respect_buffer (request : DayScheduleRequest.t) :
  valid_request request = true ->
  exists response,
    build_day_timeline request = Return response
    /\ forall k b,
         In k (TimelineResponse.scheduled_tasks response) ->
         In b (DayScheduleRequest.fixed_blocks request) ->
         disjoint (task_span k)
           (buffered_interval (DayScheduleRequest.transition_buffer_minutes request) b).
Proof.
  intros Hv. destruct (valid_request_runs _ Hv) as (st & response & Hrun).
  destruct (separated_scheduled _ _ Hv (run_inv _ _ _ Hrun)) as (_ & _ & Hr & _).
  exists response. split; [apply (run_returns _ _ _ Hrun)|].
  intros k b Hk Hbin. apply (scheduled_response_In _ _ _ k Hrun) in Hk.
  rewrite Forall_forall in Hr. specialize (Hr _ (in_map task_span _ _ Hk)).
  rewrite Forall_forall in Hr. apply Hr. unfold reserved. apply in_map.
  now apply sorted_In.
Qed.

Lemma scheduled_tasks_respect_buffer_witness :
  valid_request buffered_request = true
  /\ exists response,
       build_day_timeline buffered_request = Return response
       /\ forall k b,
            In k (TimelineResponse.scheduled_tasks response) ->
            In b (DayScheduleRequest.fixed_blocks buffered_request) ->
            disjoint (task_span k)
              (buffered_interval
                 (DayScheduleRequest.transition_buffer_minutes buffered_request) b).
Proof.
  split; [reflexivity|].
  apply (scheduled_tasks_respect_buffer buffered_request). reflexivity.
Defined.

Lemma leftover_nonempty (gap : Interval.t) (d : Z) :
  Forall (fun g => Interval.start g < Interval.end_ g) (leftover gap d).
Proof.
  unfold leftover.
  destruct (Interval.start gap + d <? Interval.end_ gap) eqn:E; repeat constructor.
  simpl. lia.
Qed.

(** C10. For a valid request, every gap of the pool in every state the
    assignment loop reaches, and every slot of the returned timeline, is a
    non-empty interval inside the day.  The walk of [_compose_timeline]
    emits no free slot in front of a slot that starts at or before the
    cursor, and the gap pushed back after a placement is never empty. *)
Theorem no_empty_interval (request : DayScheduleRequest.t) :
  valid_request request = true ->
  (forall done rest,
      prioritized request = done ++ rest ->
      exists st, foldM assign_step done (loop_start request) = Return st
                 /\ Forall proper (available_gaps st))
  /\ (exists response,
        build_day_timeline request = Return response
        /\ Forall (fun s => proper (slot_span s)) (TimelineResponse.timeline response))
  /\ (forall timeline cursor slot,
        TimelineSlot.start_minute slot <= cursor ->
        compose_step (timeline, cursor) slot
        = Return (timeline ++ [slot], Z.max cursor (TimelineSlot.end_minute slot)))
  /\ (forall st task gap st',
        placed st task gap st' ->
        exists pool,
          Permutation (available_gaps st) (gap :: pool)
          /\ available_gaps st' = pool ++ leftover gap (FlexibleTask.duration_minutes task)
          /\ Forall (fun g => Interval.start g < Interval.end_ g)
                    (leftover gap (FlexibleTask.duration_minutes task))).
Proof.
  intros Hv. split; [|split; [|split]].
  - intros done rest Hsplit.
    destruct (reachable_inv _ _ _ Hv Hsplit) as (st & Hst & Hp & _).
    exists st. split; [exact Hst|]. unfold regions in Hp.
    apply Forall_app in Hp. tauto.
  - destruct (valid_request_runs _ Hv) as (st & response & Hrun).
    exists response. split; [apply (run_returns _ _ _ Hrun) | apply (run_proper _ _ _ Hrun)].
  - intros timeline cursor slot Hle. unfold compose_step.
    destruct (cursor <? TimelineSlot.start_minute slot) eqn:E; [lia | reflexivity].
  - intros st task gap st' (l1 & l2 & Hg & _ & _ & _ & _ & ->).
    exists (l1 ++ l2). split; [|split].
    + rewrite Hg. symmetry. apply Permutation_middle.
    + reflexivity.
    + apply leftover_nonempty.
Qed.

Lemma no_empty_interval_witness :
  valid_request example_request = true
  /\ exists st,
       foldM assign_step (prioritized example_request) (loop_start example_request)
       = Return st
       /\ Forall proper (available_gaps st).
Proof.
  split; [reflexivity|].
  apply (proj1 (no_empty_interval example_request eq_refl)
           (prioritized example_request) []).
  now rewrite app_nil_r.
Defined.

(** Every task the loop schedules was placed by one of its turns. *)
Lemma assign_loop_placed (tasks : list FlexibleTask.t) :
  forall st st' k,
    foldM assign_step tasks st = Return st' ->
    In k (scheduled_tasks st') ->
    In k (scheduled_tasks st)
    \/ exists done task rest s s' gap,
         tasks = done ++ task :: rest
         /\ foldM assign_step done st = Return s
         /\ assign_step s task = Return s'
         /\ placed s task gap s'
         /\ k = bind_task task (Interval.start gap)
                  (Interval.start gap + FlexibleTask.duration_minutes task).
Proof.
  induction tasks as [|task tasks IH]; simpl; intros st st' k Hrun Hk.
  - injection Hrun as <-. now left.
  - apply bind_Return in Hrun. destruct Hrun as (st1 & Hstep & Hrun).
    destruct (IH _ _ _ Hrun Hk) as [Hk1 | (done & t & rest & s & s' & gap & -> & Hd & Hs & Hp & ->)].
    + destruct (assign_step_cases st task) as (st2 & Hst2 & Hcase).
      rewrite Hstep in Hst2. injection Hst2 as <-.
      destruct Hcase as [(_ & ->) | (gap & Hp)]; [now left|].
      assert (Hp' := Hp). destruct Hp' as (l1 & l2 & _ & _ & _ & _ & _ & ->).
      simpl in Hk1. apply in_app_or in Hk1. destruct Hk1 as [Hk1|[<-|[]]]; [now left|].
      right. exists [], task, tasks, st. eexists. exists gap.
      repeat split; [exact Hstep | exact Hp].
    + right. exists (task :: done), t, rest, s, s', gap.
      repeat split; auto. simpl. now rewrite Hstep.
Qed.

Lemma leftover_exact (gap : Interval.t) (d : Z) :
  d <= Interval.duration gap ->
  leftover gap d
  = if d =? Interval.duration gap then []
    else [Interval.mk (Interval.start gap + d) (Interval.end_ gap)].
Proof.
  unfold leftover, Interval.duration. intros Hfit.
  destruct (Interval.start gap + d <? Interval.end_ gap) eqn:E1;
    destruct (d =? Interval.end_ gap - Interval.start gap) eqn:E2; try reflexivity; lia.
Qed.

(** C6. For a valid request, every scheduled task of the response was
    placed by a turn of the assignment loop, on a state [st] the loop
    reaches, for a task of the request: the gap [gap] at the index that
    [_largest_fitting_gap_index] returns is removed from the pool, the task
    is bound to [[gap.start, gap.start + duration)], so that
    [end_minute - start_minute] is its duration, and the pool gets
    [[gap.start + duration, gap.end)] appended exactly when the duration is
    not the whole gap. *)
Theorem scheduled_task_binding (request : DayScheduleRequest.t) :
  valid_request request = true ->
  exists response,
    build_day_timeline request = Return response
    /\ forall k,
         In k (TimelineResponse.scheduled_tasks response) ->
         exists done task rest st st' gap l1 l2,
           let d := FlexibleTask.duration_minutes task in
           prioritized request = done ++ task :: rest
           /\ In task (DayScheduleRequest.flexible_tasks request)
           /\ foldM assign_step done (loop_start request) = Return st
           /\ assign_step st task = Return st'
           /\ available_gaps st = l1 ++ gap :: l2
           /\ _largest_fitting_gap_index (available_gaps st) d = Some (List.length l1)
           /\ k = bind_task task (Interval.start gap) (Interval.start gap + d)
           /\ ScheduledTask.end_minute k - ScheduledTask.start_minute k = d
           /\ scheduled_tasks st' = scheduled_tasks st ++ [k]
           /\ available_gaps st'
              = (l1 ++ l2)
                  ++ (if d =? Interval.duration gap then []
                      else [Interval.mk (Interval.start gap + d) (Interval.end_ gap)]).
Proof.
  intros Hv. destruct (valid_request_runs _ Hv) as (st & response & Hrun).
  exists response. split; [apply (run_returns _ _ _ Hrun)|].
  intros k Hk. apply (scheduled_response_In _ _ _ k Hrun) in Hk.
  destruct (assign_loop_placed _ _ _ _ (run_loop _ _ _ Hrun) Hk)
    as [[] | (done & task & rest & s & s' & gap & Hsplit & Hd & Hs & Hp & ->)].
  destruct Hp as (l1 & l2 & Hg & Hidx & Hfit & _ & _ & ->).
  exists done, task, rest, s. eexists. exists gap, l1, l2. cbv zeta.
  split; [exact Hsplit|]. split.
  { apply (sorted_In task_key_le). fold (prioritized request). rewrite Hsplit.
    apply in_or_app. right. now left. }
  split; [exact Hd|]. split; [exact Hs|]. split; [exact Hg|]. split; [exact Hidx|].
  split; [reflexivity|]. split; [simpl; lia|]. split; [reflexivity|].
  simpl. now rewrite leftover_exact.
Qed.

Lemma scheduled_task_binding_witness :
  valid_request example_request = true
  /\ exists response,
       build_day_timeline example_request = Return response
       /\ forall k,
            In k (TimelineResponse.scheduled_tasks response) ->
            exists done task rest st st' gap l1 l2,
              let d := FlexibleTask.duration_minutes task in
              prioritized example_request = done ++ task :: rest
              /\ In task (DayScheduleRequest.flexible_tasks example_request)
              /\ foldM assign_step done (loop_start example_request) = Return st
              /\ assign_step st task = Return st'
              /\ available_gaps st = l1 ++ gap :: l2
              /\ _largest_fitting_gap_index (available_gaps st) d = Some (List.length l1)
              /\ k = bind_task task (Interval.start gap) (Interval.start gap + d)
              /\ ScheduledTask.end_minute k - ScheduledTask.start_minute k = d
              /\ scheduled_tasks st' = scheduled_tasks st ++ [k]
              /\ available_gaps st'
                 = (l1 ++ l2)
                     ++ (if d =? Interval.duration gap then []
                         else [Interval.mk (Interval.start gap + d) (Interval.end_ gap)]).
Proof.
  split; [reflexivity|]. apply (scheduled_task_binding example_request). reflexivity.
Defined.

(** *** Completeness *)

Lemma NoDup_app_disjoint {A : Type} (l1 l2 : list A) (x : A) :
  NoDup (l1 ++ l2) -> In x l1 -> In x l2 -> False.
Proof.
  induction l1 as [|y l1 IH]; simpl; intros Hn H1 H2; [exact H1|].
  inversion Hn as [|? ? Hy Hn']; subst. destruct H1 as [->|H1]; [|eauto].
  apply Hy. apply in_or_app. now right.
Qed.

Lemma bind_at_id (placements : list (FlexibleTask.t * Z)) :
  map ScheduledTask.id (map bind_at placements)
  = map FlexibleTask.id (map fst placements).
Proof. rewrite !map_map. reflexivity. Qed.

(** C7, as the code has it.  For a valid request the tasks are split
    between the two lists of the response (the unscheduled tasks together
    with the tasks that were bound are, up to order, the tasks of the
    request, so each occurrence of a task lands in exactly one list), every
    unscheduled task is a task of the request, unchanged, and when the ids of
    the tasks are pairwise distinct each id occurs in exactly one of the two
    lists.  A task that no gap fits is appended to [unscheduled_tasks] and
    the loop goes on: it never raises. *)
Theorem tasks_split_between_lists (request : DayScheduleRequest.t) :
  valid_request request = true ->
  exists response,
    build_day_timeline request = Return response
    /\ (exists placements,
          Permutation (TimelineResponse.scheduled_tasks response) (map bind_at placements)
          /\ Permutation (map fst placements ++ TimelineResponse.unscheduled_tasks response)
                         (DayScheduleRequest.flexible_tasks request))
    /\ Permutation
         (map ScheduledTask.id (TimelineResponse.scheduled_tasks response)
            ++ map FlexibleTask.id (TimelineResponse.unscheduled_tasks response))
         (map FlexibleTask.id (DayScheduleRequest.flexible_tasks request))
    /\ (NoDup (map FlexibleTask.id (DayScheduleRequest.flexible_tasks request)) ->
        in_exactly_one_list request response)
    /\ (forall st task,
          Forall (fun g => Interval.duration g < FlexibleTask.duration_minutes task)
                 (available_gaps st) ->
          assign_step st task
          = Return (mk_state (available_gaps st) (scheduled_tasks st)
                             (unscheduled_tasks st ++ [task])))
    /\ (forall tasks st, exists st', foldM assign_step tasks st = Return st').
Proof.
  intros Hv. destruct (valid_request_runs _ Hv) as (st & response & Hrun).
  exists response. split; [apply (run_returns _ _ _ Hrun)|].
  destruct (assign_loop_partition _ _ _ (run_loop _ _ _ Hrun))
    as (placements & turned_down & Hs & Hu & Hperm).
  simpl in Hs, Hu. rewrite <- (run_unscheduled _ _ _ Hrun) in Hu. subst turned_down.
  assert (Hsched : Permutation (TimelineResponse.scheduled_tasks response)
                               (map bind_at placements)).
  { rewrite (run_scheduled _ _ _ Hrun), Hs. apply sorted_perm. }
  assert (Htasks : Permutation
            (map fst placements ++ TimelineResponse.unscheduled_tasks response)
            (DayScheduleRequest.flexible_tasks request)).
  { etransitivity; [exact Hperm | apply sorted_perm]. }
  assert (Hids : Permutation
            (map ScheduledTask.id (TimelineResponse.scheduled_tasks response)
               ++ map FlexibleTask.id (TimelineResponse.unscheduled_tasks response))
            (map FlexibleTask.id (DayScheduleRequest.flexible_tasks request))).
  { rewrite <- Htasks, map_app, <- bind_at_id.
    apply Permutation_app_tail, Permutation_map, Hsched. }
  split; [now exists placements|]. split; [exact Hids|]. split; [|split].
  - intros Hnd task Hin. cbv zeta.
    assert (Hnd' := Permutation_NoDup (Permutation_sym Hids) Hnd).
    assert (Hid : In (FlexibleTask.id task)
                    (map ScheduledTask.id (TimelineResponse.scheduled_tasks response)
                       ++ map FlexibleTask.id (TimelineResponse.unscheduled_tasks response))).
    { apply (Permutation_in _ (Permutation_sym Hids)). now apply in_map. }
    apply in_app_or in Hid. destruct Hid as [Hid|Hid]; [left|right]; split; auto;
      intros Hother; eapply NoDup_app_disjoint; eauto.
  - intros s task Hnone.
    destruct (assign_step_cases s task) as (s' & Hs' & [(_ & ->) | (gap & Hp)]);
      [exact Hs'|exfalso].
    destruct Hp as (l1 & l2 & Hg & _ & Hfit & _). rewrite Hg in Hnone.
    apply Forall_app in Hnone. destruct Hnone as [_ Hnone].
    inversion Hnone as [|? ? Hlt _]; subst. lia.
  - intros tasks s. apply assign_loop_total.
Qed.

Lemma tasks_split_between_lists_witness :
  valid_request example_request = true
  /\ NoDup (map FlexibleTask.id (DayScheduleRequest.flexible_tasks example_request))
  /\ exists response,
       build_day_timeline example_request = Return response
       /\ in_exactly_one_list example_request response.
Proof.
  assert (Hnd : NoDup (map FlexibleTask.id
                         (DayScheduleRequest.flexible_tasks example_request))).
  { simpl. repeat constructor; simpl; intuition discriminate. }
  split; [reflexivity|]. split; [exact Hnd|].
  destruct (tasks_split_between_lists example_request eq_refl)
    as (response & Hret & _ & _ & Hone & _).
  exists response. split; [exact Hret | exact (Hone Hnd)].
Defined.

(** C7 as stated fails on a request with a repeated task id: the first
    task takes the whole day, the second is turned down, and the id is in
    both lists. *)
Lemma in_exactly_one_list_counterexample :
  valid_request duplicate_id_request = true
  /\ exists response,
       build_day_timeline duplicate_id_request = Return response
       /\ ~ in_exactly_one_list duplicate_id_request response.
Proof.
  split; [reflexivity|]. eexists. split; [reflexivity|].
  intros H. specialize (H (FlexibleTask.mk "a" "First" 1440 1 "work")).
  simpl in H. destruct H as [[_ H] | [H _]]; [now left | apply H; now left | apply H; now left].
Qed.

(** *** Fixed-block fidelity *)

Lemma filter_length_perm {A : Type} (p : A -> bool) (l l' : list A) :
  Permutation l l' -> List.length (filter p l) = List.length (filter p l').
Proof.
  induction 1 as [|x l l' _ IH|x y l|l l' l'' _ IH1 _ IH2]; simpl.
  - reflexivity.
  - destruct (p x); simpl; now rewrite IH.
  - destruct (p x), (p y); reflexivity.
  - now rewrite IH1.
Qed.

Lemma filter_implied {A : Type} (p q : A -> bool) (l : list A) :
  (forall x, p x = true -> q x = true) -> filter p (filter q l) = filter p l.
Proof.
  intros H. induction l as [|x l IH]; simpl; [reflexivity|].
  destruct (q x) eqn:Eq; simpl; destruct (p x) eqn:Ep; rewrite ?IH; try reflexivity.
  apply H in Ep. congruence.
Qed.

Lemma filter_none {A : Type} (p : A -> bool) (l : list A) :
  (forall x, In x l -> p x = false) -> filter p l = [].
Proof.
  induction l as [|x l IH]; simpl; intros H; [reflexivity|].
  rewrite (H x) by now left. apply IH. intros y Hy. apply H. now right.
Qed.

Lemma is_fixed_slot_of_same (b b' : FixedBlock.t) :
  is_fixed_slot_of b (fixed_slot_rec b') = true -> block_span b' = block_span b.
Proof.
  unfold is_fixed_slot_of, block_span. simpl. intros H.
  repeat (apply andb_prop in H; destruct H as [H ?]). f_equal; lia.
Qed.

Lemma is_fixed_slot_of_refl (b : FixedBlock.t) :
  is_fixed_slot_of b (fixed_slot_rec b) = true.
Proof.
  unfold is_fixed_slot_of. simpl. now rewrite !String.eqb_refl, !Z.eqb_refl.
Qed.

Lemma proper_not_self_disjoint (x : Interval.t) : proper x -> ~ disjoint x x.
Proof. unfold proper, disjoint. lia. Qed.

(** Among disjoint non-empty blocks, exactly one has the bounds of [b]. *)
Lemma one_block_matches (l : list FixedBlock.t) (b : FixedBlock.t) :
  Forall proper (map block_span l) -> pairwise_disjoint (map block_span l) ->
  In b l ->
  List.length (filter (fun b' => is_fixed_slot_of b (fixed_slot_rec b')) l) = 1%nat.
Proof.
  induction l as [|x l IH]; simpl; intros Hp Hd Hin; [destruct Hin|].
  inversion Hp as [|? ? Hx Hp']; subst. inversion Hd as [|? ? Hxl Hd']; subst.
  assert (Hclash : forall y, In y l -> block_span y = block_span x -> False).
  { intros y Hy Heq. rewrite Forall_forall in Hxl.
    specialize (Hxl _ (in_map block_span _ _ Hy)). rewrite Heq in Hxl.
    now apply proper_not_self_disjoint in Hxl. }
  destruct Hin as [->|Hin].
  - rewrite is_fixed_slot_of_refl. simpl. rewrite filter_none; [reflexivity|].
    intros y Hy. destruct (is_fixed_slot_of b (fixed_slot_rec y)) eqn:E; [exfalso|reflexivity].
    apply is_fixed_slot_of_same in E. eauto.
  - destruct (is_fixed_slot_of b (fixed_slot_rec x)) eqn:E; [exfalso | now apply IH].
    apply is_fixed_slot_of_same in E. symmetry in E. eauto.
Qed.

Lemma filter_map_length {A B : Type} (f : A -> B) (p : B -> bool) (l : list A) :
  List.length (filter p (map f l)) = List.length (filter (fun x => p (f x)) l).
Proof.
  induction l as [|x l IH]; simpl; [reflexivity|].
  destruct (p (f x)); simpl; now rewrite IH.
Qed.

(** C8. For a valid request and each of its fixed blocks, the timeline of
    the response holds exactly one slot of type fixed with the id, the
    title, the [start_minute] and the [end_minute] of the block; that slot
    is the one [_compose_timeline] builds from the block, whatever the
    buffer. *)
Theorem fixed_block_fidelity (request : DayScheduleRequest.t) :
  valid_request request = true ->
  exists response,
    build_day_timeline request = Return response
    /\ forall b,
         In b (DayScheduleRequest.fixed_blocks request) ->
         In (fixed_slot_rec b) (TimelineResponse.timeline response)
         /\ List.length (filter (is_fixed_slot_of b) (TimelineResponse.timeline response))
            = 1%nat.
Proof.
  intros Hv. destruct (valid_request_runs _ Hv) as (st & response & Hrun).
  destruct (valid_request_parts _ Hv) as (Hb & _ & _ & Hn).
  exists response. split; [apply (run_returns _ _ _ Hrun)|].
  intros b Hin. assert (Hocc := run_occupied _ _ _ Hrun).
  set (blocks := sorted block_key_le (DayScheduleRequest.fixed_blocks request)) in *.
  split.
  - assert (H : In (fixed_slot_rec b)
                   (filter is_occupied (TimelineResponse.timeline response))).
    { rewrite Hocc. apply sorted_In. unfold occupied_slots. apply in_or_app. left.
      apply in_map. now apply sorted_In. }
    apply filter_In in H. tauto.
  - rewrite <- (filter_implied (is_fixed_slot_of b) is_occupied).
    2:{ intros s Hs. unfold is_fixed_slot_of, is_fixed, is_occupied in *.
        destruct (TimelineSlot.slot_type s); [reflexivity | reflexivity | discriminate]. }
    rewrite Hocc.
    rewrite (filter_length_perm _ _ _ (sorted_perm slot_key_le _)).
    unfold occupied_slots. rewrite filter_app, length_app.
    rewrite (filter_none _ (map task_slot_rec (scheduled_tasks st))).
    2:{ intros s Hs. apply in_map_iff in Hs. destruct Hs as (k & <- & _). reflexivity. }
    rewrite Nat.add_0_r, filter_map_length. unfold blocks.
    rewrite (filter_length_perm _ _ _ (sorted_perm block_key_le _)).
    apply one_block_matches; [now apply valid_blocks_proper | | exact Hin].
    now apply non_overlapping_disjoint.
Qed.

Lemma fixed_block_fidelity_witness :
  valid_request buffered_request = true
  /\ exists response,
       build_day_timeline buffered_request = Return response
       /\ forall b,
            In b (DayScheduleRequest.fixed_blocks buffered_request) ->
            In (fixed_slot_rec b) (TimelineResponse.timeline response)
            /\ List.length (filter (is_fixed_slot_of b) (TimelineResponse.timeline response))
               = 1%nat.
Proof.
  split; [reflexivity|]. apply (fixed_block_fidelity buffered_request). reflexivity.
Defined.

(** *** Overlap rejection *)

Lemma bind_value_error {A B : Type} (c : outcome A) (k : A -> outcome B) :
  raises_value_error (bind c k) ->
  raises_value_error c \/ exists a, c = Return a /\ raises_value_error (k a).
Proof.
  destruct c as [a|e]; simpl; intros H; [right; eauto | left].
  destruct H as (msg & H). exists msg. congruence.
Qed.

Lemma new_slot_no_value_error ty i ttl s e cat prio :
  ~ raises_value_error (TimelineSlot.new ty i ttl s e cat prio).
Proof.
  unfold TimelineSlot.new. intros (msg & H).
  destruct (TimelineSlot.valid _); discriminate.
Qed.

Lemma mapM_no_value_error {A B : Type} (f : A -> outcome B) (l : list A) :
  (forall x, ~ raises_value_error (f x)) -> ~ raises_value_error (mapM f l).
Proof.
  intros Hf. induction l as [|x l IH]; simpl; intros H.
  - destruct H as (msg & H). discriminate.
  - apply bind_value_error in H. destruct H as [H | (y & _ & H)]; [now apply (Hf x)|].
    apply bind_value_error in H. destruct H as [H | (ys & _ & (msg & H))];
      [auto | discriminate].
Qed.

Lemma foldM_no_value_error {A S : Type} (f : S -> A -> outcome S) (l : list A) :
  (forall s x, ~ raises_value_error (f s x)) ->
  forall s, ~ raises_value_error (foldM f l s).
Proof.
  intros Hf. induction l as [|x l IH]; simpl; intros s H.
  - destruct H as (msg & H). discriminate.
  - apply bind_value_error in H. destruct H as [H | (s' & _ & H)];
      [now apply (Hf s x) | now apply (IH s')].
Qed.

Lemma compose_step_no_value_error st slot : ~ raises_value_error (compose_step st slot).
Proof.
  destruct st as [timeline cursor]. unfold compose_step. intros H.
  apply bind_value_error in H. destruct H as [H | (tl & _ & (msg & H))]; [|discriminate].
  destruct (cursor <? TimelineSlot.start_minute slot).
  - apply bind_value_error in H. destruct H as [H | (fr & _ & (msg & H))]; [|discriminate].
    now apply new_slot_no_value_error in H.
  - destruct H as (msg & H). discriminate.
Qed.

Lemma compose_timeline_no_value_error blocks scheduled :
  ~ raises_value_error (_compose_timeline blocks scheduled).
Proof.
  unfold _compose_timeline. intros H.
  apply bind_value_error in H. destruct H as [H | (fs & _ & H)].
  { revert H. apply mapM_no_value_error. intros b. apply new_slot_no_value_error. }
  apply bind_value_error in H. destruct H as [H | (ts & _ & H)].
  { revert H. apply mapM_no_value_error. intros k. apply new_slot_no_value_error. }
  apply bind_value_error in H. destruct H as [H | ([tl cursor] & _ & H)].
  { revert H. apply foldM_no_value_error. apply compose_step_no_value_error. }
  destruct (cursor <? MINUTES_PER_DAY).
  - apply bind_value_error in H. destruct H as [H | (fr & _ & (msg & H))]; [|discriminate].
    now apply new_slot_no_value_error in H.
  - destruct H as (msg & H). discriminate.
Qed.

(** C4.  [build_day_timeline] raises the overlap error (the [ValueError]
    of [_sorted_non_overlapping_fixed_blocks]) if and only if, in the blocks
    sorted by [(start_minute, end_minute)], some block starts before its
    predecessor ends; the message then names the ids of such a pair, and no
    response is returned.  Blocks A at 0-60 and B at 30-90, in either order,
    raise the error naming A and B. *)
Theorem overlap_rejected (request : DayScheduleRequest.t) :
  let blocks := sorted block_key_le (DayScheduleRequest.fixed_blocks request) in
  ((exists msg, build_day_timeline request = Raise (ValueError msg))
   <-> exists prev curr, adjacent_overlap blocks prev curr)
  /\ (forall msg,
        build_day_timeline request = Raise (ValueError msg) ->
        exists prev curr,
          adjacent_overlap blocks prev curr /\ msg = overlap_msg prev curr)
  /\ ((exists prev curr, adjacent_overlap blocks prev curr) ->
      forall response, build_day_timeline request <> Return response)
  /\ (forall title_a title_b tasks buffer,
        build_day_timeline
          (DayScheduleRequest.mk
             [FixedBlock.mk "A" title_a 0 60; FixedBlock.mk "B" title_b 30 90]
             tasks buffer)
        = Raise (ValueError "Fixed blocks overlap: 'A' and 'B'")
        /\ build_day_timeline
             (DayScheduleRequest.mk
                [FixedBlock.mk "B" title_b 30 90; FixedBlock.mk "A" title_a 0 60]
                tasks buffer)
           = Raise (ValueError "Fixed blocks overlap: 'A' and 'B'")).
Proof.
  intros blocks.
  assert (Hraise : forall msg,
            build_day_timeline request = Raise (ValueError msg) ->
            exists prev curr,
              adjacent_overlap blocks prev curr /\ msg = overlap_msg prev curr).
  { intros msg H. unfold build_day_timeline, _sorted_non_overlapping_fixed_blocks in H.
    fold blocks in H.
    destruct (check_adjacent_cases blocks) as [(Hok & _) | (p & c & Hr & Hov)].
    - exfalso. rewrite Hok in H. cbn [bind] in H.
      assert (Hve : raises_value_error
                (st <- foldM assign_step (sorted task_key_le
                         (DayScheduleRequest.flexible_tasks request))
                       (initial_state (_available_gaps blocks
                          (DayScheduleRequest.transition_buffer_minutes request))) ;;
                 timeline <- _compose_timeline blocks (scheduled_tasks st) ;;
                 Return (TimelineResponse.mk 0 MINUTES_PER_DAY
                           (DayScheduleRequest.transition_buffer_minutes request)
                           timeline
                           (sorted scheduled_key_le (scheduled_tasks st))
                           (unscheduled_tasks st)))) by (exists msg; exact H).
      apply bind_value_error in Hve. destruct Hve as [(m & Hve) | (st & _ & Hve)].
      + destruct (assign_loop_total (sorted task_key_le
                    (DayScheduleRequest.flexible_tasks request))
                    (initial_state (_available_gaps blocks
                       (DayScheduleRequest.transition_buffer_minutes request))))
          as (st & Hst).
        congruence. 
      + apply bind_value_error in Hve. destruct Hve as [Hve | (tl & _ & (m & Hve))];
          [|discriminate].
        now apply compose_timeline_no_value_error in Hve.
    - rewrite Hr in H. cbn [bind] in H. injection H as <-. eauto. }
  assert (Hov : (exists prev curr, adjacent_overlap blocks prev curr) ->
                exists prev curr,
                  build_day_timeline request = Raise (ValueError (overlap_msg prev curr))).
  { intros (p & c & Hpc). unfold build_day_timeline, _sorted_non_overlapping_fixed_blocks.
    fold blocks.
    destruct (check_adjacent_cases blocks) as [(_ & Hc) | (p' & c' & -> & _)].
    - now apply chain_no_adjacent_overlap in Hpc.
    - exists p', c'. reflexivity. }
  split; [|split; [exact Hraise|split]].
  - split.
    + intros (msg & H). destruct (Hraise msg H) as (p & c & Hpc & _). eauto.
    + intros H. destruct (Hov H) as (p & c & Hpc). eauto.
  - intros H response Hret. destruct (Hov H) as (p & c & Hpc). congruence.
  - intros title_a title_b tasks buffer. split; reflexivity.
Qed.

Lemma overlap_rejected_witness :
  exists msg,
    build_day_timeline
      (DayScheduleRequest.mk
         [FixedBlock.mk "A" "Alpha" 0 60; FixedBlock.mk "B" "Beta" 30 90] [] 15)
    = Raise (ValueError msg).
Proof.
  apply (proj1 (overlap_rejected
                  (DayScheduleRequest.mk
                     [FixedBlock.mk "A" "Alpha" 0 60; FixedBlock.mk "B" "Beta" 30 90]
                     [] 15))).
  exists (FixedBlock.mk "A" "Alpha" 0 60), (FixedBlock.mk "B" "Beta" 30 90).
  exists [], []. split; [reflexivity | simpl; lia].
Defined.

(** *** The tie-break of the gap selection *)

(** The gaps come out of [_available_gaps] in the order of their starts:
    each one starts at the cursor, and the cursor never moves back. *)
Lemma gap_fold_sorted (merged : list Interval.t) :
  forall gaps0 cursor gaps1 cursor1,
    fold_left gap_step merged (gaps0, cursor) = (gaps1, cursor1) ->
    exists gaps,
      gaps1 = gaps0 ++ gaps
      /\ cursor <= cursor1
      /\ StronglySorted start_le gaps
      /\ Forall (fun g => cursor <= Interval.start g <= cursor1) gaps.
Proof.
  induction merged as [|m merged IH]; simpl; intros gaps0 cursor gaps1 cursor1 Hf.
  - injection Hf as <- <-. exists []. rewrite app_nil_r.
    repeat split; try constructor; lia.
  - apply IH in Hf. destruct Hf as (gaps & -> & Hc & Hs & Hb).
    assert (Hb' : Forall (fun g => cursor <= Interval.start g <= cursor1) gaps).
    { eapply Forall_impl; [|exact Hb]. simpl. intros; lia. }
    destruct (cursor <? Interval.start m).
    + exists (Interval.mk cursor (Interval.start m) :: gaps).
      split; [now rewrite <- app_assoc|]. split; [lia|]. split.
      * constructor; [exact Hs|]. eapply Forall_impl; [|exact Hb'].
        unfold start_le. simpl. intros; lia.
      * constructor; [simpl; lia | exact Hb'].
    + exists gaps. repeat split; auto; lia.
Qed.

Lemma available_gaps_sorted (blocks : list FixedBlock.t) (buf : Z) :
  StronglySorted start_le (_available_gaps blocks buf).
Proof.
  unfold _available_gaps. destruct blocks as [|b0 bs]; [repeat constructor|].
  set (merged := _merge_intervals _).
  destruct (fold_left gap_step merged ([], 0)) as [gaps cursor] eqn:F.
  apply gap_fold_sorted in F. destruct F as (gaps' & -> & _ & Hs & Hb). simpl.
  destruct (cursor <? MINUTES_PER_DAY); [|exact Hs].
  apply StronglySorted_snoc; [exact Hs|].
  eapply Forall_impl; [|exact Hb]. unfold start_le. simpl. intros; lia.
Qed.

Lemma nth_error_middle {A : Type} (l1 l2 : list A) (x : A) :
  nth_error (l1 ++ x :: l2) (List.length l1) = Some x.
Proof.
  rewrite nth_error_app2 by lia. now rewrite Nat.sub_diag.
Qed.

(** C2, as the code has it.  Among the gaps long enough for the task,
    [_largest_fitting_gap_index] selects one of the largest duration, and
    among those of the largest duration the one that comes first in the
    pool list.  The pool lists the gaps of [_available_gaps], which are in
    the order of their starts, followed by the leftovers in the order they
    were appended; so the selected gap is the one with the earliest start
    whenever the pool is in the order of the starts, as it is before the
    first leftover is appended.  With the gaps [[0,100)] and [[500,600)] a
    task of duration 100 is placed at [[0,100)]. *)
Theorem largest_gap_first_in_pool :
  (forall pool d i,
      _largest_fitting_gap_index pool d = Some i ->
      exists gap l1 l2,
        pool = l1 ++ gap :: l2 /\ List.length l1 = i
        /\ d <= Interval.duration gap
        /\ Forall (fun g => Interval.duration g < Interval.duration gap) l1
        /\ Forall (fun g => Interval.duration g <= Interval.duration gap) l2)
  /\ (forall pool d,
        StronglySorted start_le pool -> selects_earliest_start pool d)
  /\ (forall blocks buf, StronglySorted start_le (_available_gaps blocks buf))
  /\ (forall st task,
        available_gaps st = [Interval.mk 0 100; Interval.mk 500 600] ->
        FlexibleTask.duration_minutes task = 100 ->
        assign_step st task
        = Return (mk_state [Interval.mk 500 600]
                    (scheduled_tasks st ++ [bind_task task 0 100])
                    (unscheduled_tasks st))).
Proof.
  split; [|split; [|split]].
  - intros pool d i H. assert (Hspec := largest_fitting_gap_index_spec pool d).
    rewrite H in Hspec. exact Hspec.
  - intros pool d Hs i gap Hi Hn g Hg Hdur.
    assert (Hspec := largest_fitting_gap_index_spec pool d). rewrite Hi in Hspec.
    destruct Hspec as (gap' & l1 & l2 & -> & <- & _ & H1 & _).
    rewrite nth_error_middle in Hn. injection Hn as ->.
    apply StronglySorted_middle in Hs. destruct Hs as [_ Hs].
    apply in_app_or in Hg. destruct Hg as [Hg|[<-|Hg]].
    + rewrite Forall_forall in H1. specialize (H1 _ Hg). lia.
    + lia.
    + rewrite Forall_forall in Hs. apply (Hs _ Hg).
  - apply available_gaps_sorted.
  - intros [pool sched unsched] task Hpool Hd. simpl in Hpool. subst pool.
    unfold assign_step. simpl. rewrite Hd. reflexivity.
Qed.

Lemma largest_gap_first_in_pool_witness :
  selects_earliest_start
    (_available_gaps (DayScheduleRequest.fixed_blocks example_request) 0) 200
  /\ assign_step (initial_state [Interval.mk 0 100; Interval.mk 500 600])
                 (FlexibleTask.mk "mail" "Mail" 100 2 "admin")
     = Return (mk_state [Interval.mk 500 600]
                 [bind_task (FlexibleTask.mk "mail" "Mail" 100 2 "admin") 0 100] []).
Proof.
  destruct largest_gap_first_in_pool as (_ & Hsel & Hsorted & Hex). split.
  - apply Hsel. apply Hsorted.
  - apply (Hex (initial_state [Interval.mk 0 100; Interval.mk 500 600])); reflexivity.
Defined.

(** C2 as stated fails once a leftover has been appended.  In
    [example_request] the 200-minute task takes [[0,200)] and leaves the
    pool [[[600,900); [200,500)]]; for the 100-minute task both gaps are the
    largest, and the one selected is [[600,900)], not the one that starts
    first. *)
Lemma earliest_start_counterexample :
  reachable_pool example_request
    [Interval.mk 600 900; Interval.mk 200 500]
    (FlexibleTask.mk "mail" "Mail" 100 2 "admin")
  /\ ~ selects_earliest_start [Interval.mk 600 900; Interval.mk 200 500] 100.
Proof.
  split.
  - split; [reflexivity|].
    exists [FlexibleTask.mk "report" "Report" 200 1 "work"], [].
    eexists. repeat split; reflexivity.
  - intros H.
    specialize (H 0%nat (Interval.mk 600 900) eq_refl eq_refl (Interval.mk 200 500)).
    simpl in H. assert (600 <= 200); [|lia].
    apply H; [right; now left | reflexivity].
Qed.

(** *** The standup scenario *)

(** C3 as stated fails: the free slots of the timeline are not the
    buffered gaps. *)
Lemma standup_free_slots_counterexample :
  exists response,
    build_day_timeline standup_request = Return response
    /\ free_spans (TimelineResponse.timeline response)
       <> [Interval.mk 0 525; Interval.mk 585 1440].
Proof.
  eexists. split; [reflexivity|]. vm_compute. discriminate.
Qed.

(** C3, as the code has it.  For one fixed block 540-570, buffer 15 and no
    tasks, the timeline is the free slot [[0,540)], the fixed slot with its
    bounds 540-570, and the free slot [[570,1440)]: the free slots of the
    timeline are what the fixed slot leaves of the day.  The buffer shows
    in the gaps offered to the tasks, which are [[0,525)] and [[585,1440)]. *)
Theorem standup_timeline (id title : string) :
  let block := FixedBlock.mk id title 540 570 in
  build_day_timeline (DayScheduleRequest.mk [block] [] 15)
  = Return (TimelineResponse.mk 0 1440 15
              [TimelineSlot.mk free_slot "free-0-540" "Free" 0 540 None None;
               TimelineSlot.mk fixed_slot id title 540 570 None None;
               TimelineSlot.mk free_slot "free-570-1440" "Free" 570 1440 None None]
              [] [])
  /\ free_spans [TimelineSlot.mk free_slot "free-0-540" "Free" 0 540 None None;
                 TimelineSlot.mk fixed_slot id title 540 570 None None;
                 TimelineSlot.mk free_slot "free-570-1440" "Free" 570 1440 None None]
     = [Interval.mk 0 540; Interval.mk 570 1440]
  /\ _available_gaps [block] 15 = [Interval.mk 0 525; Interval.mk 585 1440].
Proof.
  repeat split.
Qed.


(** * Further properties of the engine *)

(** ** [_merge_intervals] *)

Lemma covered_app (l1 l2 : list Interval.t) (m : Z) :
  covered (l1 ++ l2) m <-> covered l1 m \/ covered l2 m.
Proof.
  unfold covered. split.
  - intros (i & Hi & Hm). apply in_app_or in Hi. destruct Hi; eauto.
  - intros [(i & Hi & Hm) | (i & Hi & Hm)]; exists i; split; auto;
      apply in_or_app; auto.
Qed.

Lemma covered_cons (i : Interval.t) (l : list Interval.t) (m : Z) :
  covered (i :: l) m <-> contains i m \/ covered l m.
Proof.
  unfold covered. split.
  - intros (j & [<-|Hj] & Hm); eauto.
  - intros [Hm | (j & Hj & Hm)]; [exists i | exists j]; simpl; auto.
Qed.

Lemma covered_nil (m : Z) : ~ covered [] m.
Proof. intros (i & [] & _). Qed.

Lemma covered_perm (l l' : list Interval.t) (m : Z) :
  Permutation l l' -> covered l m <-> covered l' m.
Proof.
  intros Hp. unfold covered. split; intros (i & Hi & Hm); exists i; split; auto.
  - eapply Permutation_in; eauto.
  - eapply Permutation_in; [symmetry|]; eauto.
Qed.

(** The merge loop neither loses nor adds a minute. *)
Lemma merge_fold_covered (rest : list Interval.t) :
  forall front last front' last',
    fold_left merge_step rest (front, last) = (front', last') ->
    StronglySorted start_le rest -> Forall (start_le last) rest ->
    forall m, covered (front' ++ [last']) m
              <-> covered (front ++ [last]) m \/ covered rest m.
Proof.
  induction rest as [|cur rest IH]; simpl; intros front last front' last' Hf Hs Hl m.
  - injection Hf as <- <-. split; [tauto|]. intros [H|H]; [exact H|].
    now apply covered_nil in H.
  - inversion Hs as [|? ? Hs' Hcur]; subst. inversion Hl as [|? ? Hlc Hl']; subst.
    rewrite covered_cons. unfold start_le in Hlc.
    destruct (Interval.start cur <=? Interval.end_ last) eqn:E.
    + rewrite (IH _ _ _ _ Hf Hs') by exact Hl'.
      rewrite !covered_app, !covered_cons.
      assert (Hkey : contains (Interval.mk (Interval.start last)
                                 (Z.max (Interval.end_ last) (Interval.end_ cur))) m
                     <-> contains last m \/ contains cur m).
      { unfold contains. cbn [Interval.start Interval.end_]. lia. }
      assert (Hn := covered_nil m). tauto.
    + rewrite (IH _ _ _ _ Hf Hs') by exact Hcur.
      rewrite !covered_app, !covered_cons. assert (Hn := covered_nil m). tauto.
Qed.

Lemma Sorted_snoc_replace {A : Type} (R : A -> A -> Prop) (l : list A) (x x' : A) :
  (forall p, R p x -> R p x') -> Sorted R (l ++ [x]) -> Sorted R (l ++ [x']).
Proof.
  intros H. induction l as [|a l IH]; simpl; intros Hs.
  - repeat constructor.
  - inversion Hs as [|? ? Hs' Hhd]; subst. constructor; [auto|].
    destruct l as [|b l]; simpl in *; inversion Hhd; subst; constructor; auto.
Qed.

Lemma Sorted_snoc_add {A : Type} (R : A -> A -> Prop) (l : list A) (x y : A) :
  R x y -> Sorted R (l ++ [x]) -> Sorted R ((l ++ [x]) ++ [y]).
Proof.
  intros H. induction l as [|a l IH]; simpl; intros Hs.
  - repeat constructor. exact H.
  - inversion Hs as [|? ? Hs' Hhd]; subst. constructor; [auto|].
    destruct l as [|b l]; simpl in *; inversion Hhd; subst; constructor; auto.
Qed.

(** An order between neighbours that the merge loop keeps: it may look at
    the start of its right argument only, and must hold between an
    interval and a later one that starts after it ends. *)
Lemma merge_fold_Sorted (R : Interval.t -> Interval.t -> Prop) :
  (forall p x e, R p x -> R p (Interval.mk (Interval.start x) e)) ->
  (forall a b, Interval.start a <= Interval.start b ->
               Interval.end_ a < Interval.start b -> R a b) ->
  forall rest front last front' last',
    fold_left merge_step rest (front, last) = (front', last') ->
    StronglySorted start_le rest -> Forall (start_le last) rest ->
    Sorted R (front ++ [last]) -> Sorted R (front' ++ [last']).
Proof.
  intros Hext Happ.
  induction rest as [|cur rest IH]; simpl; intros front last front' last' Hf Hs Hl Hsorted.
  - now injection Hf as <- <-.
  - inversion Hs as [|? ? Hs' Hcur]; subst. inversion Hl as [|? ? Hlc Hl']; subst.
    unfold start_le in Hlc.
    destruct (Interval.start cur <=? Interval.end_ last) eqn:E.
    + apply (IH _ _ _ _ Hf Hs'); [exact Hl'|].
      eapply Sorted_snoc_replace; [|exact Hsorted]. intros p Hp. now apply Hext.
    + apply (IH _ _ _ _ Hf Hs'); [exact Hcur|].
      apply Sorted_snoc_add; [|exact Hsorted]. apply Happ; lia.
Qed.

Lemma merge_fold_well_formed (rest : list Interval.t) :
  forall front last front' last',
    fold_left merge_step rest (front, last) = (front', last') ->
    Forall well_formed rest -> Forall well_formed (front ++ [last]) ->
    Forall well_formed (front' ++ [last']).
Proof.
  induction rest as [|cur rest IH]; simpl; intros front last front' last' Hf Hr Hw.
  - now injection Hf as <- <-.
  - inversion Hr as [|? ? Hc Hr']; subst.
    apply Forall_app in Hw. destruct Hw as [Hwf Hwl].
    inversion Hwl as [|? ? Hlast _]; subst. unfold well_formed in Hlast.
    destruct (Interval.start cur <=? Interval.end_ last) eqn:E;
      apply (IH _ _ _ _ Hf Hr'); apply Forall_app; split; auto.
    + constructor; [|constructor]. unfold well_formed. simpl. lia.
    + apply Forall_app. split; auto.
Qed.

(** The three facts about the result, for any input. *)
Lemma merge_intervals_facts (intervals : list Interval.t) :
  (forall m, covered (_merge_intervals intervals) m <-> covered intervals m)
  /\ Sorted strictly_apart (_merge_intervals intervals)
  /\ Sorted start_le (_merge_intervals intervals)
  /\ (Forall well_formed intervals -> Forall well_formed (_merge_intervals intervals)).
Proof.
  unfold _merge_intervals.
  assert (Hperm := sorted_perm interval_key_le intervals).
  assert (Hs := sorted_start_le intervals).
  destruct (sorted interval_key_le intervals) as [|first rest] eqn:E.
  - apply Permutation_nil in Hperm. subst. repeat split; try constructor; auto.
  - destruct (fold_left merge_step rest ([], first)) as [front last] eqn:F.
    inversion Hs as [|? ? Hs' Hfirst]; subst.
    split; [|split; [|split]].
    + intros m. rewrite (merge_fold_covered _ _ _ _ _ F Hs' Hfirst). simpl.
      rewrite <- (covered_perm _ _ m Hperm), !covered_cons.
      assert (Hn := covered_nil m). tauto.
    + apply (merge_fold_Sorted strictly_apart (fun p x e H => H) (fun a b _ H => H)
               rest [] first front last F Hs' Hfirst).
      repeat constructor.
    + apply (merge_fold_Sorted start_le (fun p x e H => H) (fun a b H _ => H)
               rest [] first front last F Hs' Hfirst).
      repeat constructor.
    + intros Hw. apply (merge_fold_well_formed _ _ _ _ _ F).
      * assert (H : Forall well_formed (first :: rest))
          by (eapply Permutation_Forall; [symmetry; exact Hperm | exact Hw]).
        now inversion H.
      * assert (H : Forall well_formed (first :: rest))
          by (eapply Permutation_Forall; [symmetry; exact Hperm | exact Hw]).
        inversion H; subst. repeat constructor; assumption.
Qed.

(** X1. [_merge_intervals] neither loses nor adds a minute: a minute lies
    in one of the merged regions exactly when it lies in one of the given
    intervals, whatever their order and however they overlap. *)
Theorem merge_intervals_same_minutes (intervals : list Interval.t) (m : Z) :
  covered (_merge_intervals intervals) m <-> covered intervals m.
Proof. apply merge_intervals_facts. Qed.

(** X2. In the result of [_merge_intervals] each region starts strictly
    after the previous one ends: regions neither overlap nor touch, since
    touching intervals are merged.  The starts are in ascending order. *)
Theorem merge_intervals_apart (intervals : list Interval.t) :
  Sorted strictly_apart (_merge_intervals intervals)
  /\ Sorted start_le (_merge_intervals intervals).
Proof.
  split; apply merge_intervals_facts.
Qed.

Lemma insert_sorted_head {A : Type} (key_le : A -> A -> bool) (x : A) (l : list A) :
  HdRel (fun a b => key_le a b = true) x l -> insert_sorted key_le x l = x :: l.
Proof.
  intros H. destruct H as [|y l Hxy]; simpl; [reflexivity|]. now rewrite Hxy.
Qed.

Lemma sorted_fixpoint {A : Type} (key_le : A -> A -> bool) (l : list A) :
  Sorted (fun a b => key_le a b = true) l -> sorted key_le l = l.
Proof.
  induction 1 as [|x l Hs IH Hhd]; simpl; [reflexivity|].
  fold (sorted key_le l). rewrite IH. now apply insert_sorted_head.
Qed.

Lemma merge_fold_apart_id (rest : list Interval.t) :
  forall front last,
    Sorted strictly_apart (last :: rest) ->
    exists front' last',
      fold_left merge_step rest (front, last) = (front', last')
      /\ front' ++ [last'] = front ++ last :: rest.
Proof.
  induction rest as [|cur rest IH]; simpl; intros front last Hs.
  - eauto.
  - inversion Hs as [|? ? Hs' Hhd]; subst. inversion Hhd as [|? ? Hlc]; subst.
    unfold strictly_apart in Hlc.
    destruct (Interval.start cur <=? Interval.end_ last) eqn:E; [lia|].
    destruct (IH (front ++ [last]) cur Hs') as (f & l & Hf & Heq).
    exists f, l. split; [exact Hf|]. now rewrite Heq, <- app_assoc.
Qed.

(** X3. [_merge_intervals] is idempotent on intervals with [start <= end]:
    merging an already merged list changes nothing. *)
Theorem merge_intervals_idempotent (intervals : list Interval.t) :
  Forall well_formed intervals ->
  _merge_intervals (_merge_intervals intervals) = _merge_intervals intervals.
Proof.
  intros Hw. destruct (merge_intervals_facts intervals) as (_ & Hap & _ & Hwf).
  specialize (Hwf Hw). set (merged := _merge_intervals intervals) in *.
  assert (Hkey : Sorted (fun a b => interval_key_le a b = true) merged).
  { clear Hw. induction Hap as [|x l Hs IH Hhd]; [constructor|].
    inversion Hwf as [|? ? Hx Hl]; subst. constructor; [auto|].
    destruct Hhd as [|y l Hxy]; constructor.
    unfold interval_key_le, pair_le, strictly_apart, well_formed in *. simpl. lia. }
  unfold _merge_intervals at 1. rewrite (sorted_fixpoint _ _ Hkey).
  destruct merged as [|first rest]; [reflexivity|].
  destruct (merge_fold_apart_id rest [] first Hap) as (f & l & -> & Heq).
  exact Heq.
Qed.

Lemma merge_intervals_idempotent_witness :
  Forall well_formed [Interval.mk 585 640; Interval.mk 0 30; Interval.mk 20 45]
  /\ _merge_intervals
       (_merge_intervals [Interval.mk 585 640; Interval.mk 0 30; Interval.mk 20 45])
     = _merge_intervals [Interval.mk 585 640; Interval.mk 0 30; Interval.mk 20 45].
Proof.
  assert (H : Forall well_formed
                [Interval.mk 585 640; Interval.mk 0 30; Interval.mk 20 45]).
  { repeat constructor; unfold well_formed; simpl; lia. }
  split; [exact H | exact (merge_intervals_idempotent _ H)].
Defined.

(** ** [_available_gaps] *)

(** The walk over regions in the order of their starts and inside the day
    emits exactly the minutes between the cursor and its final position
    that no region holds. *)
Lemma gap_fold_complement (merged : list Interval.t) :
  forall gaps0 cursor gaps1 cursor1,
    fold_left gap_step merged (gaps0, cursor) = (gaps1, cursor1) ->
    cursor <= MINUTES_PER_DAY -> Forall bounded merged ->
    StronglySorted start_le merged ->
    exists gaps,
      gaps1 = gaps0 ++ gaps
      /\ cursor <= cursor1 <= MINUTES_PER_DAY
      /\ Forall (fun r => Interval.end_ r <= cursor1) merged
      /\ forall m, covered gaps m <-> cursor <= m < cursor1 /\ ~ covered merged m.
Proof.
  induction merged as [|r merged IH]; simpl; intros gaps0 cursor gaps1 cursor1 Hf Hc Hb Hs.
  - injection Hf as <- <-. exists []. rewrite app_nil_r.
    split; [reflexivity|]. split; [lia|]. split; [constructor|].
    intros m. assert (Hn := covered_nil m). split; [tauto | lia].
  - inversion Hb as [|? ? Hbr Hb']; subst. inversion Hs as [|? ? Hs' Hr]; subst.
    unfold bounded in Hbr.
    apply IH in Hf; [|lia|assumption|assumption].
    destruct Hf as (gaps & -> & Hcc & Hends & Hcov).
    assert (Hlater : forall m, m < Interval.start r -> ~ covered merged m).
    { intros m Hm (i & Hi & Him). rewrite Forall_forall in Hr. specialize (Hr i Hi).
      unfold start_le, contains in *. lia. }
    exists ((if cursor <? Interval.start r
             then [Interval.mk cursor (Interval.start r)] else []) ++ gaps).
    split; [destruct (cursor <? Interval.start r); now rewrite <- ?app_assoc|].
    split; [lia|]. split; [constructor; [lia | exact Hends]|].
    intros m. rewrite covered_app, Hcov, (covered_cons r merged).
    specialize (Hlater m). assert (Hn := covered_nil m).
    assert (Hfirst : covered (if cursor <? Interval.start r
                              then [Interval.mk cursor (Interval.start r)] else []) m
                     <-> cursor <= m < Interval.start r).
    { destruct (cursor <? Interval.start r) eqn:E.
      - rewrite covered_cons. unfold contains. cbn [Interval.start Interval.end_]. tauto.
      - split; [tauto | lia]. }
    rewrite Hfirst. unfold contains.
    destruct (Z.lt_ge_cases m (Interval.start r)) as [Hlt|Hge].
    + specialize (Hlater Hlt). intuition lia.
    + clear Hlater. intuition lia.
Qed.

(** X4. The gaps are exactly the free minutes of the day: for schema-valid
    fixed blocks, in any order and overlapping or not, and a buffer that is
    not negative, a minute lies in one of the gaps of [_available_gaps]
    exactly when it lies in [[0, 1440)] and in no buffered interval
    [[max(0, start - buffer), min(1440, end + buffer))] of a fixed block. *)
Theorem available_gaps_complement (fixed_blocks : list FixedBlock.t) (buf m : Z) :
  0 <= buf -> forallb FixedBlock.valid fixed_blocks = true ->
  covered (_available_gaps fixed_blocks buf) m
  <-> 0 <= m < MINUTES_PER_DAY
      /\ ~ covered (map (buffered_interval buf) fixed_blocks) m.
Proof.
  intros Hbuf Hv. unfold _available_gaps.
  destruct fixed_blocks as [|b0 bs] eqn:Eb.
  - rewrite covered_cons. unfold contains. simpl.
    assert (Hn := covered_nil m). tauto.
  - rewrite <- Eb in *. clear Eb b0 bs.
    set (buffered := map (buffered_interval buf) fixed_blocks).
    assert (Hbb : Forall bounded buffered).
    { apply Forall_map, Forall_forall. intros b Hb. apply buffered_bounded; [exact Hbuf|].
      rewrite forallb_forall in Hv. now apply Hv. }
    destruct (merge_intervals_spec buffered Hbb) as (Hs & Hbm & _).
    rewrite <- (proj1 (merge_intervals_facts buffered) m).
    destruct (fold_left gap_step (_merge_intervals buffered) ([], 0)) as [gaps cursor] eqn:F.
    apply gap_fold_complement in F; [|unfold MINUTES_PER_DAY; lia|exact Hbm|exact Hs].
    destruct F as (gaps' & -> & Hc & Hends & Hcov). simpl.
    assert (Hpast : forall x, cursor <= x -> ~ covered (_merge_intervals buffered) x).
    { intros x Hx (i & Hi & Hix). rewrite Forall_forall in Hends.
      specialize (Hends i Hi). unfold contains in Hix. lia. }
    specialize (Hpast m).
    destruct (cursor <? MINUTES_PER_DAY) eqn:E.
    + rewrite covered_app, Hcov, covered_cons. unfold contains. simpl.
      assert (Hn := covered_nil m). split.
      * intros [H|[H|H]]; [split; [lia|tauto] | split; [lia|apply Hpast; lia] | tauto].
      * intros (Hm & Hnot). destruct (Z.lt_ge_cases m cursor); [left | right; left]; tauto || lia.
    + rewrite Hcov. split.
      * intros (Hm & Hnot). split; [lia | exact Hnot].
      * intros (Hm & Hnot). split; [lia | exact Hnot].
Qed.

Lemma available_gaps_complement_witness :
  covered (_available_gaps [FixedBlock.mk "standup" "Standup" 540 570] 15) 530
  <-> 0 <= 530 < MINUTES_PER_DAY
      /\ ~ covered (map (buffered_interval 15)
                        [FixedBlock.mk "standup" "Standup" 540 570]) 530.
Proof.
  apply (available_gaps_complement [FixedBlock.mk "standup" "Standup" 540 570] 15 530);
    [lia | reflexivity].
Defined.

(** ** [_sorted_non_overlapping_fixed_blocks] *)

Lemma disjoint_non_overlapping (l : list FixedBlock.t) :
  pairwise_disjoint (map block_span l) -> non_overlapping l = true.
Proof.
  induction l as [|b l IH]; simpl; intros H; [reflexivity|].
  inversion H as [|? ? Hb Hl]; subst. apply andb_true_intro. split; [|exact (IH Hl)].
  apply forallb_forall. intros c Hc. rewrite Forall_forall in Hb.
  specialize (Hb _ (in_map block_span _ _ Hc)).
  unfold overlaps. unfold disjoint in Hb. simpl in Hb. lia.
Qed.

Lemma sorted_blocks_Return (blocks r : list FixedBlock.t) :
  _sorted_non_overlapping_fixed_blocks blocks = Return r ->
  r = sorted block_key_le blocks /\ chain (map block_span r).
Proof.
  unfold _sorted_non_overlapping_fixed_blocks. intros H.
  destruct (check_adjacent_cases (sorted block_key_le blocks))
    as [(Hok & Hc) | (p & c & Hr & _)].
  - rewrite Hok in H. simpl in H. injection H as <-. auto.
  - rewrite Hr in H. discriminate.
Qed.

Lemma overlap_check_iff_aux (blocks : list FixedBlock.t) :
  forallb FixedBlock.valid blocks = true ->
  (exists r, _sorted_non_overlapping_fixed_blocks blocks = Return r) ->
  non_overlapping blocks = true.
Proof.
  intros Hv (r & Hr). apply sorted_blocks_Return in Hr. destruct Hr as (-> & Hc).
  apply disjoint_non_overlapping.
  apply (pairwise_disjoint_perm (map block_span (sorted block_key_le blocks))).
  - apply Permutation_map, sorted_perm.
  - apply chain_pairwise_disjoint; [|exact Hc].
    now apply valid_blocks_proper, sorted_blocks_valid.
Qed.

(** X5. For schema-valid fixed blocks the check of neighbours in sorted
    order decides overlap of any two blocks: the function returns exactly
    when no two blocks of the input overlap, whatever the order of the
    input.  Blocks that only touch are accepted. *)
Theorem overlap_check_decides (blocks : list FixedBlock.t) :
  forallb FixedBlock.valid blocks = true ->
  (exists r, _sorted_non_overlapping_fixed_blocks blocks = Return r)
  <-> non_overlapping blocks = true.
Proof.
  intros Hv. split.
  - now apply overlap_check_iff_aux.
  - intros Hn. destruct (sorted_blocks_ok _ Hv Hn) as (H & _). eauto.
Qed.

Lemma overlap_check_decides_witness :
  (exists r,
      _sorted_non_overlapping_fixed_blocks
        [FixedBlock.mk "late" "Late" 600 660; FixedBlock.mk "early" "Early" 540 600]
      = Return r)
  <-> non_overlapping
        [FixedBlock.mk "late" "Late" 600 660; FixedBlock.mk "early" "Early" 540 600]
      = true.
Proof.
  apply (overlap_check_decides
           [FixedBlock.mk "late" "Late" 600 660; FixedBlock.mk "early" "Early" 540 600]).
  reflexivity.
Defined.

(** X6. When [_sorted_non_overlapping_fixed_blocks] returns, the result
    holds the blocks of the input, each as often as the input does, in
    ascending order of [(start_minute, end_minute)], and each block starts
    no earlier than the one before it ends. *)
Theorem sorted_blocks_result (blocks r : list FixedBlock.t) :
  _sorted_non_overlapping_fixed_blocks blocks = Return r ->
  Permutation r blocks
  /\ Sorted (fun a b => block_key_le a b = true) r
  /\ chain (map block_span r).
Proof.
  intros H. apply sorted_blocks_Return in H. destruct H as (-> & Hc).
  split; [apply sorted_perm|]. split; [|exact Hc].
  apply sorted_Sorted. intros x y. apply pair_le_total.
Qed.

Lemma sorted_blocks_result_witness :
  Permutation
    [FixedBlock.mk "early" "Early" 540 600; FixedBlock.mk "late" "Late" 600 660]
    [FixedBlock.mk "late" "Late" 600 660; FixedBlock.mk "early" "Early" 540 600]
  /\ Sorted (fun a b => block_key_le a b = true)
       [FixedBlock.mk "early" "Early" 540 600; FixedBlock.mk "late" "Late" 600 660]
  /\ chain (map block_span
              [FixedBlock.mk "early" "Early" 540 600; FixedBlock.mk "late" "Late" 600 660]).
Proof.
  apply (sorted_blocks_result
           [FixedBlock.mk "late" "Late" 600 660; FixedBlock.mk "early" "Early" 540 600]).
  reflexivity.
Defined.

(** ** [_largest_fitting_gap_index] *)

(** X7. [_largest_fitting_gap_index] returns [None] exactly when no gap of
    the pool is as long as the task, in particular on the empty pool; an
    index it returns is a position of the pool, so the [pop] that follows
    cannot fail. *)
Theorem largest_fitting_gap_index_none (gaps : list Interval.t) (d : Z) :
  (_largest_fitting_gap_index gaps d = None
   <-> Forall (fun g => Interval.duration g < d) gaps)
  /\ (forall i, _largest_fitting_gap_index gaps d = Some i ->
                (i < List.length gaps)%nat
                /\ exists r, pop gaps i = Return r).
Proof.
  assert (H := largest_fitting_gap_index_spec gaps d).
  destruct (_largest_fitting_gap_index gaps d) as [i|]; split.
  - split; [discriminate|]. intros Hall.
    destruct H as (gap & l1 & l2 & -> & _ & Hfit & _).
    apply Forall_app in Hall. destruct Hall as [_ Hall].
    inversion Hall; subst. lia.
  - intros j Hj. injection Hj as <-.
    destruct H as (gap & l1 & l2 & -> & <- & _). split.
    + rewrite length_app. simpl. lia.
    + rewrite pop_middle. eauto.
  - tauto.
  - discriminate.
Qed.

Lemma largest_fitting_gap_index_none_witness :
  (1 < List.length [Interval.mk 0 100; Interval.mk 500 700])%nat
  /\ exists r, pop [Interval.mk 0 100; Interval.mk 500 700] 1 = Return r.
Proof.
  apply (proj2 (largest_fitting_gap_index_none
                  [Interval.mk 0 100; Interval.mk 500 700] 150) 1%nat).
  reflexivity.
Defined.

(** ** How [build_day_timeline] can fail *)

Lemma new_slot_raise ty i ttl s e cat prio (x : exn) :
  TimelineSlot.new ty i ttl s e cat prio = Raise x -> x = ValidationError.
Proof.
  unfold TimelineSlot.new. destruct (TimelineSlot.valid _); congruence.
Qed.

Lemma bind_Raise {A B : Type} (c : outcome A) (k : A -> outcome B) (x : exn) :
  bind c k = Raise x -> c = Raise x \/ exists a, c = Return a /\ k a = Raise x.
Proof.
  destruct c as [a|e]; simpl; intros H; [right; eauto | left; congruence].
Qed.

Lemma mapM_raise {A B : Type} (f : A -> outcome B) (P : exn -> Prop) (l : list A) :
  (forall a x, f a = Raise x -> P x) -> forall x, mapM f l = Raise x -> P x.
Proof.
  intros Hf. induction l as [|a l IH]; simpl; intros x H; [discriminate|].
  apply bind_Raise in H. destruct H as [H | (y & _ & H)]; [eauto|].
  apply bind_Raise in H. destruct H as [H | (ys & _ & H)]; [eauto | discriminate].
Qed.

Lemma foldM_raise {A S : Type} (f : S -> A -> outcome S) (P : exn -> Prop) (l : list A) :
  (forall s a x, f s a = Raise x -> P x) -> forall s x, foldM f l s = Raise x -> P x.
Proof.
  intros Hf. induction l as [|a l IH]; simpl; intros s x H; [discriminate|].
  apply bind_Raise in H. destruct H as [H | (s' & _ & H)]; eauto.
Qed.

Lemma compose_step_raise st slot (x : exn) :
  compose_step st slot = Raise x -> x = ValidationError.
Proof.
  destruct st as [timeline cursor]. unfold compose_step. intros H.
  apply bind_Raise in H. destruct H as [H | (tl & _ & H)]; [|discriminate].
  destruct (cursor <? TimelineSlot.start_minute slot); [|discriminate].
  apply bind_Raise in H. destruct H as [H | (fr & _ & H)]; [|discriminate].
  now apply new_slot_raise in H.
Qed.

Lemma compose_timeline_raise blocks scheduled (x : exn) :
  _compose_timeline blocks scheduled = Raise x -> x = ValidationError.
Proof.
  unfold _compose_timeline. intros H.
  apply bind_Raise in H. destruct H as [H | (fs & _ & H)].
  { apply (mapM_raise fixed_slot_of (fun e => e = ValidationError) blocks); [|exact H].
    intros b y. apply new_slot_raise. }
  apply bind_Raise in H. destruct H as [H | (ts & _ & H)].
  { apply (mapM_raise task_slot_of (fun e => e = ValidationError) scheduled); [|exact H].
    intros k y. apply new_slot_raise. }
  apply bind_Raise in H. destruct H as [H | ([tl cursor] & _ & H)].
  { apply (foldM_raise compose_step (fun e => e = ValidationError) _
             compose_step_raise _ _ H). }
  destruct (cursor <? MINUTES_PER_DAY); [|discriminate].
  apply bind_Raise in H. destruct H as [H | (fr & _ & H)]; [|discriminate].
  now apply new_slot_raise in H.
Qed.

(** X8. [build_day_timeline] fails in two ways only.  It raises the
    overlap error, naming two neighbours of the sorted fixed blocks of which
    the second starts before the first ends; or a [TimelineSlot] is refused
    by its schema, which happens only for a request that its own schema
    refuses.  The [pop] of the assignment loop never raises, and a request
    that passes its schema either is answered or has overlapping blocks. *)
Theorem failure_modes (request : DayScheduleRequest.t) (x : exn) :
  build_day_timeline request = Raise x ->
  (exists prev curr,
      adjacent_overlap (sorted block_key_le (DayScheduleRequest.fixed_blocks request))
                       prev curr
      /\ x = ValueError (overlap_msg prev curr))
  \/ (x = ValidationError /\ DayScheduleRequest.valid request = false).
Proof.
  intros H. assert (H0 := H). unfold build_day_timeline in H.
  apply bind_Raise in H. destruct H as [H | (blocks & Hb & H)].
  - left. unfold _sorted_non_overlapping_fixed_blocks in H.
    destruct (check_adjacent_cases
                (sorted block_key_le (DayScheduleRequest.fixed_blocks request)))
      as [(Hok & _) | (p & c & Hr & Hov)].
    + rewrite Hok in H. discriminate.
    + rewrite Hr in H. simpl in H. injection H as <-. eauto.
  - right. apply bind_Raise in H. destruct H as [H | (st & _ & H)].
    { destruct (assign_loop_total
                  (sorted task_key_le (DayScheduleRequest.flexible_tasks request))
                  (initial_state (_available_gaps blocks
                     (DayScheduleRequest.transition_buffer_minutes request))))
        as (st & Hst). congruence. }
    apply bind_Raise in H. destruct H as [H | (tl & _ & H)]; [|discriminate].
    apply compose_timeline_raise in H. split; [exact H|].
    destruct (DayScheduleRequest.valid request) eqn:Ev; [exfalso | reflexivity].
    assert (Hvb : forallb FixedBlock.valid (DayScheduleRequest.fixed_blocks request) = true).
    { unfold DayScheduleRequest.valid in Ev.
      repeat (apply andb_prop in Ev; destruct Ev as [Ev ?]). exact Ev. }
    assert (Hn : non_overlapping (DayScheduleRequest.fixed_blocks request) = true)
      by (apply overlap_check_iff_aux; eauto).
    assert (Hv : valid_request request = true)
      by (unfold valid_request; now rewrite Ev, Hn).
    destruct (valid_request_runs _ Hv) as (st' & response & Hrun).
    rewrite (run_returns _ _ _ Hrun) in H0. discriminate.
Qed.

Lemma failure_modes_witness :
  (exists prev curr,
      adjacent_overlap
        (sorted block_key_le
           [FixedBlock.mk "B" "Beta" 30 90; FixedBlock.mk "A" "Alpha" 0 60])
        prev curr
      /\ ValueError "Fixed blocks overlap: 'A' and 'B'" = ValueError (overlap_msg prev curr))
  \/ (ValueError "Fixed blocks overlap: 'A' and 'B'" = ValidationError
      /\ DayScheduleRequest.valid
           (DayScheduleRequest.mk
              [FixedBlock.mk "B" "Beta" 30 90; FixedBlock.mk "A" "Alpha" 0 60] [] 15)
         = false).
Proof.
  apply (failure_modes
           (DayScheduleRequest.mk
              [FixedBlock.mk "B" "Beta" 30 90; FixedBlock.mk "A" "Alpha" 0 60] [] 15)
           (ValueError "Fixed blocks overlap: 'A' and 'B'")).
  reflexivity.
Defined.

(** ** The assignment loop *)

Lemma assign_step_unscheduled_grows (st st' : assign_state) (task t : FlexibleTask.t) :
  assign_step st task = Return st' ->
  In t (unscheduled_tasks st) -> In t (unscheduled_tasks st').
Proof.
  intros Hstep Hin. destruct (assign_step_cases st task) as (st2 & Hst2 & Hcase).
  rewrite Hstep in Hst2. injection Hst2 as <-.
  destruct Hcase as [(_ & ->) | (gap & l1 & l2 & _ & _ & _ & _ & _ & ->)]; simpl.
  - apply in_or_app. now left.
  - exact Hin.
Qed.

Lemma assign_loop_unscheduled_grows (tasks : list FlexibleTask.t) :
  forall st st' t,
    foldM assign_step tasks st = Return st' ->
    In t (unscheduled_tasks st) -> In t (unscheduled_tasks st').
Proof.
  induction tasks as [|task tasks IH]; simpl; intros st st' t Hrun Hin.
  - now injection Hrun as <-.
  - apply bind_Return in Hrun. destruct Hrun as (st1 & Hstep & Hrun).
    eapply IH; [exact Hrun|]. eapply assign_step_unscheduled_grows; eauto.
Qed.

Lemma leftover_shorter (gap : Interval.t) (d : Z) :
  0 <= d ->
  Forall (fun g => Interval.duration g <= Interval.duration gap) (leftover gap d).
Proof.
  intros Hd. unfold leftover.
  destruct (Interval.start gap + d <? Interval.end_ gap); repeat constructor.
  unfold Interval.duration. simpl. lia.
Qed.

(** Once every gap of the pool is shorter than [d], it stays so, and every
    later task that is at least [d] long is turned down. *)
Lemma assign_loop_short_gaps (d : Z) (tasks : list FlexibleTask.t) :
  forall st st',
    Forall (fun task => 0 <= FlexibleTask.duration_minutes task) tasks ->
    Forall (fun g => Interval.duration g < d) (available_gaps st) ->
    foldM assign_step tasks st = Return st' ->
    Forall (fun g => Interval.duration g < d) (available_gaps st')
    /\ forall t, In t tasks -> d <= FlexibleTask.duration_minutes t ->
                 In t (unscheduled_tasks st').
Proof.
  induction tasks as [|task tasks IH]; simpl; intros st st' Hpos Hshort Hrun.
  - injection Hrun as <-. split; [exact Hshort | intros t []].
  - inversion Hpos as [|? ? Hp Hpos']; subst.
    apply bind_Return in Hrun. destruct Hrun as (st1 & Hstep & Hrun).
    destruct (assign_step_cases st task) as (st2 & Hst2 & Hcase).
    rewrite Hstep in Hst2. injection Hst2 as <-.
    assert (Hshort1 : Forall (fun g => Interval.duration g < d) (available_gaps st1)).
    { destruct Hcase as [(_ & ->) | (gap & l1 & l2 & Hg & _ & _ & _ & _ & ->)];
        simpl; [exact Hshort|].
      rewrite Hg in Hshort. apply Forall_app in Hshort. destruct Hshort as [H1 H2].
      inversion H2 as [|? ? Hgap H2']; subst.
      apply Forall_app. split; [apply Forall_app; now split|].
      eapply Forall_impl; [|apply (leftover_shorter gap _ Hp)].
      simpl. intros; lia. }
    destruct (IH _ _ Hpos' Hshort1 Hrun) as (Hfinal & Hlater).
    split; [exact Hfinal|]. intros t [<-|Hin] Hd; [|auto].
    eapply assign_loop_unscheduled_grows; [exact Hrun|].
    destruct Hcase as [(_ & ->) | (gap & l1 & l2 & Hg & _ & Hfit & _)].
    + simpl. apply in_or_app. right. now left.
    + exfalso. rewrite Hg in Hshort. apply Forall_app in Hshort.
      destruct Hshort as [_ H2]. inversion H2; subst. lia.
Qed.

Lemma prioritized_nonneg (request : DayScheduleRequest.t) :
  valid_request request = true ->
  Forall (fun task => 0 <= FlexibleTask.duration_minutes task) (prioritized request).
Proof.
  intros Hv. eapply Forall_impl; [|apply (prioritized_positive _ Hv)].
  simpl. intros; lia.
Qed.

(** X9. Turning a task down is final for everything as long: on a valid
    request, if no gap of the pool fits a task at its turn, then that task
    and every task taken after it that is at least as long are in
    [unscheduled_tasks]. *)
Theorem turned_down_is_monotone (request : DayScheduleRequest.t)
    (done rest : list FlexibleTask.t) (t : FlexibleTask.t) (st : assign_state) :
  valid_request request = true ->
  prioritized request = done ++ t :: rest ->
  foldM assign_step done (loop_start request) = Return st ->
  Forall (fun g => Interval.duration g < FlexibleTask.duration_minutes t)
         (available_gaps st) ->
  exists response,
    build_day_timeline request = Return response
    /\ forall t', In t' (t :: rest) ->
                  FlexibleTask.duration_minutes t <= FlexibleTask.duration_minutes t' ->
                  In t' (TimelineResponse.unscheduled_tasks response).
Proof.
  intros Hv Hsplit Hdone Hshort.
  destruct (valid_request_runs _ Hv) as (final & response & Hrun).
  exists response. split; [apply (run_returns _ _ _ Hrun)|].
  assert (Hloop := run_loop _ _ _ Hrun). rewrite Hsplit, foldM_app, Hdone in Hloop.
  cbn [bind] in Hloop.
  assert (Hpos := prioritized_nonneg _ Hv). rewrite Hsplit in Hpos.
  apply Forall_app in Hpos. destruct Hpos as [_ Hpos].
  destruct (assign_loop_short_gaps _ _ _ _ Hpos Hshort Hloop) as (_ & H).
  rewrite (run_unscheduled _ _ _ Hrun). exact H.
Qed.

Lemma turned_down_is_monotone_witness :
  exists response,
    build_day_timeline crowded_request = Return response
    /\ forall t',
         In t' [FlexibleTask.mk "long" "Long" 200 1 "work";
                FlexibleTask.mk "also" "Also long" 200 2 "work";
                FlexibleTask.mk "short" "Short" 60 3 "admin"] ->
         200 <= FlexibleTask.duration_minutes t' ->
         In t' (TimelineResponse.unscheduled_tasks response).
Proof.
  apply (turned_down_is_monotone crowded_request []
           [FlexibleTask.mk "also" "Also long" 200 2 "work";
            FlexibleTask.mk "short" "Short" 60 3 "admin"]
           (FlexibleTask.mk "long" "Long" 200 1 "work")
           (loop_start crowded_request)).
  - reflexivity.
  - reflexivity.
  - reflexivity.
  - repeat constructor.
Defined.

(** X10. A task longer than every gap that the fixed blocks and the buffer
    leave is never scheduled: on a valid request it is in
    [unscheduled_tasks]. *)
Theorem too_long_is_unscheduled (request : DayScheduleRequest.t) (t : FlexibleTask.t) :
  valid_request request = true ->
  In t (DayScheduleRequest.flexible_tasks request) ->
  Forall (fun g => Interval.duration g < FlexibleTask.duration_minutes t)
         (initial_gaps request) ->
  exists response,
    build_day_timeline request = Return response
    /\ In t (TimelineResponse.unscheduled_tasks response).
Proof.
  intros Hv Hin Hshort.
  destruct (valid_request_runs _ Hv) as (final & response & Hrun).
  exists response. split; [apply (run_returns _ _ _ Hrun)|].
  destruct (assign_loop_short_gaps _ _ (loop_start request) _
              (prioritized_nonneg _ Hv) Hshort (run_loop _ _ _ Hrun)) as (_ & H).
  rewrite (run_unscheduled _ _ _ Hrun). apply H; [|lia].
  now apply sorted_In.
Qed.

Lemma too_long_is_unscheduled_witness :
  exists response,
    build_day_timeline crowded_request = Return response
    /\ In (FlexibleTask.mk "also" "Also long" 200 2 "work")
          (TimelineResponse.unscheduled_tasks response).
Proof.
  apply (too_long_is_unscheduled crowded_request
           (FlexibleTask.mk "also" "Also long" 200 2 "work")).
  - reflexivity.
  - right. right. now left.
  - repeat constructor.
Defined.

Lemma total_duration_app (l1 l2 : list Interval.t) :
  total_duration (l1 ++ l2) = total_duration l1 + total_duration l2.
Proof.
  induction l1 as [|x l1 IH]; simpl; [reflexivity|]. rewrite IH. lia.
Qed.

Lemma total_duration_perm (l l' : list Interval.t) :
  Permutation l l' -> total_duration l = total_duration l'.
Proof.
  induction 1; simpl; lia.
Qed.

Lemma total_duration_leftover (gap : Interval.t) (d : Z) :
  d <= Interval.duration gap ->
  total_duration (leftover gap d) = Interval.duration gap - d.
Proof.
  unfold leftover, Interval.duration. intros Hfit.
  destruct (Interval.start gap + d <? Interval.end_ gap) eqn:E;
    unfold total_duration, Interval.duration; simpl; lia.
Qed.

(** The minutes of the pool and of the scheduled tasks, taken together,
    do not change in a turn of the loop. *)
Lemma assign_step_conserves (st st' : assign_state) (task : FlexibleTask.t) :
  assign_step st task = Return st' ->
  total_duration (regions st') = total_duration (regions st).
Proof.
  intros Hstep. destruct (assign_step_cases st task) as (st2 & Hst2 & Hcase).
  rewrite Hstep in Hst2. injection Hst2 as <-.
  destruct Hcase as [(_ & ->) | (gap & l1 & l2 & Hg & _ & Hfit & _ & _ & ->)];
    [reflexivity|].
  unfold regions. rewrite Hg. simpl. rewrite map_app.
  rewrite !total_duration_app, (total_duration_leftover _ _ Hfit). simpl.
  unfold Interval.duration, task_span, bind_task. simpl. lia.
Qed.

Lemma assign_loop_conserves (tasks : list FlexibleTask.t) :
  forall st st',
    foldM assign_step tasks st = Return st' ->
    total_duration (regions st') = total_duration (regions st).
Proof.
  induction tasks as [|task tasks IH]; simpl; intros st st' Hrun.
  - now injection Hrun as <-.
  - apply bind_Return in Hrun. destruct Hrun as (st1 & Hstep & Hrun).
    rewrite (IH _ _ Hrun). now apply (assign_step_conserves st st1 task).
Qed.

Lemma total_duration_proper (l : list Interval.t) :
  Forall proper l -> 0 <= total_duration l.
Proof.
  induction 1 as [|x l Hx _ IH]; simpl; [lia|].
  unfold proper, Interval.duration in *. lia.
Qed.

(** X11. No minute is lost or invented by the assignment loop: on a valid
    request the minutes of the scheduled tasks and of the gaps left in the
    pool add up to the minutes of the gaps the loop started from, so the
    scheduled tasks never take more time than the gaps offered. *)
Theorem scheduled_time_is_conserved (request : DayScheduleRequest.t) :
  valid_request request = true ->
  exists response st,
    build_day_timeline request = Return response
    /\ foldM assign_step (prioritized request) (loop_start request) = Return st
    /\ total_duration (map task_span (TimelineResponse.scheduled_tasks response))
       + total_duration (available_gaps st)
       = total_duration (initial_gaps request)
    /\ total_duration (map task_span (TimelineResponse.scheduled_tasks response))
       <= total_duration (initial_gaps request).
Proof.
  intros Hv. destruct (valid_request_runs _ Hv) as (st & response & Hrun).
  exists response, st. split; [apply (run_returns _ _ _ Hrun)|].
  split; [apply (run_loop _ _ _ Hrun)|].
  assert (Hc := assign_loop_conserves _ _ _ (run_loop _ _ _ Hrun)).
  unfold regions in Hc. rewrite total_duration_app in Hc. simpl in Hc.
  fold (initial_gaps request) in Hc.
  assert (Hsame : total_duration (map task_span (TimelineResponse.scheduled_tasks response))
                  = total_duration (map task_span (scheduled_tasks st))).
  { apply total_duration_perm, Permutation_map.
    rewrite (run_scheduled _ _ _ Hrun). apply sorted_perm. }
  rewrite Hsame. split; [exact Hc|].
  destruct (run_inv _ _ _ Hrun) as (Hp & _). unfold regions in Hp.
  apply Forall_app in Hp. destruct Hp as [_ Hp].
  apply total_duration_proper in Hp. lia.
Qed.

Lemma scheduled_time_is_conserved_witness :
  exists response st,
    build_day_timeline example_request = Return response
    /\ foldM assign_step (prioritized example_request) (loop_start example_request)
       = Return st
    /\ total_duration (map task_span (TimelineResponse.scheduled_tasks response))
       + total_duration (available_gaps st)
       = total_duration (initial_gaps example_request)
    /\ total_duration (map task_span (TimelineResponse.scheduled_tasks response))
       <= total_duration (initial_gaps example_request).
Proof.
  apply (scheduled_time_is_conserved example_request). reflexivity.
Defined.

Lemma within_trans (x y z : Interval.t) : within x y -> within y z -> within x z.
Proof. unfold within. lia. Qed.

Lemma within_refl (x : Interval.t) : within x x.
Proof. unfold within. lia. Qed.

(** Every scheduled task and every gap of the pool lies inside one of the
    gaps of [origin]. *)
Lemma assign_loop_within (origin : list Interval.t) (tasks : list FlexibleTask.t) :
  forall st st',
    Forall (fun task => 0 <= FlexibleTask.duration_minutes task) tasks ->
    Forall (fun x => exists g, In g origin /\ within x g) (regions st) ->
    foldM assign_step tasks st = Return st' ->
    Forall (fun x => exists g, In g origin /\ within x g) (regions st').
Proof.
  induction tasks as [|task tasks IH]; simpl; intros st st' Hpos Hin Hrun.
  - now injection Hrun as <-.
  - inversion Hpos as [|? ? Hp Hpos']; subst.
    apply bind_Return in Hrun. destruct Hrun as (st1 & Hstep & Hrun).
    apply (IH _ _ Hpos') in Hrun; [exact Hrun|]. clear IH Hrun.
    destruct (assign_step_cases st task) as (st2 & Hst2 & Hcase).
    rewrite Hstep in Hst2. injection Hst2 as <-.
    destruct Hcase as [(_ & ->) | (gap & Hp')]; [exact Hin|].
    destruct (placed_regions _ _ _ _ Hp') as (others & Hr & Hr').
    destruct Hp' as (l1 & l2 & _ & _ & Hfit & _).
    eapply Permutation_Forall; [symmetry; exact Hr'|].
    apply (Permutation_Forall Hr) in Hin.
    inversion Hin as [|? ? (g & Hg & Hgg) Hothers]; subst.
    unfold Interval.duration in Hfit.
    constructor; [|apply Forall_app; split; [|exact Hothers]].
    + exists g. split; [exact Hg|]. eapply within_trans; [|exact Hgg].
      unfold within. simpl. lia.
    + unfold leftover.
      destruct (Interval.start gap + FlexibleTask.duration_minutes task
                <? Interval.end_ gap); repeat constructor.
      exists g. split; [exact Hg|]. eapply within_trans; [|exact Hgg].
      unfold within. simpl. lia.
Qed.

(** X12. A task is never split nor moved out of a gap: on a valid request
    the interval of every scheduled task lies inside a single one of the
    gaps that the fixed blocks and the buffer leave. *)
Theorem scheduled_inside_one_gap (request : DayScheduleRequest.t) :
  valid_request request = true ->
  exists response,
    build_day_timeline request = Return response
    /\ forall k,
         In k (TimelineResponse.scheduled_tasks response) ->
         exists g, In g (initial_gaps request) /\ within (task_span k) g.
Proof.
  intros Hv. destruct (valid_request_runs _ Hv) as (st & response & Hrun).
  exists response. split; [apply (run_returns _ _ _ Hrun)|].
  intros k Hk. apply (scheduled_response_In _ _ _ k Hrun) in Hk.
  assert (H : Forall (fun x => exists g, In g (initial_gaps request) /\ within x g)
                     (regions st)).
  { apply (assign_loop_within (initial_gaps request) (prioritized request)
             (loop_start request) st (prioritized_nonneg _ Hv));
      [|apply (run_loop _ _ _ Hrun)].
    unfold regions, loop_start. simpl. fold (initial_gaps request).
    apply Forall_forall. intros g Hg. exists g. split; [exact Hg | apply within_refl]. }
  unfold regions in H. apply Forall_app in H. destruct H as [H _].
  rewrite Forall_forall in H. apply H. now apply in_map.
Qed.

Lemma scheduled_inside_one_gap_witness :
  exists response,
    build_day_timeline buffered_request = Return response
    /\ forall k,
         In k (TimelineResponse.scheduled_tasks response) ->
         exists g, In g (initial_gaps buffered_request) /\ within (task_span k) g.
Proof.
  apply (scheduled_inside_one_gap buffered_request). reflexivity.
Defined.

(** ** The order of the tasks *)

Lemma triple_le_total (a b : Z * Z * string) :
  triple_le a b = false -> triple_le b a = true.
Proof.
  destruct a as [[a1 a2] a3], b as [[b1 b2] b3]. unfold triple_le.
  destruct (String.leb_total a3 b3) as [H|H]; rewrite H; lia.
Qed.

Lemma task_key_taken_before (a b : FlexibleTask.t) :
  task_key_le a b = true -> taken_before a b.
Proof.
  unfold task_key_le, triple_le, taken_before. lia.
Qed.

Lemma taken_before_trans : Relations_1.Transitive taken_before.
Proof. unfold taken_before. intros x y z. lia. Qed.

Lemma prioritized_taken_before (request : DayScheduleRequest.t) :
  StronglySorted taken_before (prioritized request).
Proof.
  apply Sorted_StronglySorted; [exact taken_before_trans|].
  eapply Sorted_weaken; [exact task_key_taken_before|].
  apply sorted_Sorted. intros x y. apply triple_le_total.
Qed.


Lemma StronglySorted_remove {A : Type} (R : A -> A -> Prop) (l1 l2 : list A) (x : A) :
  StronglySorted R (l1 ++ x :: l2) -> StronglySorted R (l1 ++ l2).
Proof.
  induction l1 as [|y l1 IH]; simpl; intros H; inversion H as [|? ? Hs Hy]; subst.
  - exact Hs.
  - constructor; [auto|]. apply Forall_app in Hy. destruct Hy as [H1 H2].
    inversion H2; subst. apply Forall_app. now split.
Qed.

(** The tasks turned down so far, followed by the tasks still to take, stay
    in the order in which the loop takes them. *)
Lemma assign_loop_unscheduled_order (R : FlexibleTask.t -> FlexibleTask.t -> Prop)
    (tasks : list FlexibleTask.t) :
  forall st st',
    StronglySorted R (unscheduled_tasks st ++ tasks) ->
    foldM assign_step tasks st = Return st' ->
    StronglySorted R (unscheduled_tasks st').
Proof.
  induction tasks as [|task tasks IH]; simpl; intros st st' Hs Hrun.
  - injection Hrun as <-. now rewrite app_nil_r in Hs.
  - apply bind_Return in Hrun. destruct Hrun as (st1 & Hstep & Hrun).
    apply (IH _ _) in Hrun; [exact Hrun|]. clear IH Hrun.
    destruct (assign_step_cases st task) as (st2 & Hst2 & Hcase).
    rewrite Hstep in Hst2. injection Hst2 as <-.
    destruct Hcase as [(_ & ->) | (gap & l1 & l2 & _ & _ & _ & _ & _ & ->)]; simpl.
    + now rewrite <- app_assoc.
    + eapply StronglySorted_remove; exact Hs.
Qed.

Lemma build_Return (request : DayScheduleRequest.t) (response : TimelineResponse.t) :
  build_day_timeline request = Return response ->
  exists st timeline,
    foldM assign_step (prioritized request) (loop_start request) = Return st
    /\ _compose_timeline (sorted block_key_le (DayScheduleRequest.fixed_blocks request))
                         (scheduled_tasks st) = Return timeline
    /\ response
       = TimelineResponse.mk 0 MINUTES_PER_DAY
           (DayScheduleRequest.transition_buffer_minutes request)
           timeline (sorted scheduled_key_le (scheduled_tasks st))
           (unscheduled_tasks st).
Proof.
  unfold build_day_timeline. intros H.
  apply bind_Return in H. destruct H as (blocks & Hb & H).
  apply sorted_blocks_Return in Hb. destruct Hb as (-> & _).
  apply bind_Return in H. destruct H as (st & Hst & H).
  apply bind_Return in H. destruct H as (timeline & Htl & H).
  injection H as <-. exists st, timeline. auto.
Qed.

(** X14. Whenever [build_day_timeline] answers, [unscheduled_tasks] lists
    tasks of the request in the order in which the loop took them: by
    ascending priority value and, within a priority, by descending
    duration. *)
Theorem unscheduled_in_priority_order (request : DayScheduleRequest.t)
    (response : TimelineResponse.t) :
  build_day_timeline request = Return response ->
  StronglySorted taken_before (TimelineResponse.unscheduled_tasks response)
  /\ forall t, In t (TimelineResponse.unscheduled_tasks response) ->
               In t (DayScheduleRequest.flexible_tasks request).
Proof.
  intros H. apply build_Return in H. destruct H as (st & timeline & Hst & _ & ->).
  simpl. split.
  - apply (assign_loop_unscheduled_order taken_before _ _ _) with (2 := Hst).
    simpl. apply prioritized_taken_before.
  - intros t Ht. destruct (assign_loop_partition _ _ _ Hst) as (ps & rs & _ & Hu & Hperm).
    simpl in Hu. subst rs. apply (sorted_In task_key_le). fold (prioritized request).
    apply (Permutation_in _ Hperm). apply in_or_app. now right.
Qed.

Lemma unscheduled_in_priority_order_witness :
  StronglySorted taken_before
    [FlexibleTask.mk "long" "Long" 200 1 "work";
     FlexibleTask.mk "also" "Also long" 200 2 "work"]
  /\ forall t,
       In t [FlexibleTask.mk "long" "Long" 200 1 "work";
             FlexibleTask.mk "also" "Also long" 200 2 "work"] ->
       In t (DayScheduleRequest.flexible_tasks crowded_request).
Proof.
  apply (unscheduled_in_priority_order crowded_request
           (TimelineResponse.mk 0 1440 0
              [TimelineSlot.mk fixed_slot "morning" "Morning" 0 600 None None;
               TimelineSlot.mk task_slot "short" "Short" 600 660 (Some "admin"%string) (Some 3);
               TimelineSlot.mk free_slot "free-660-750" "Free" 660 750 None None;
               TimelineSlot.mk fixed_slot "night" "Night" 750 1440 None None]
              [ScheduledTask.mk "short" "Short" "admin" 3 600 660]
              [FlexibleTask.mk "long" "Long" 200 1 "work";
               FlexibleTask.mk "also" "Also long" 200 2 "work"])).
  reflexivity.
Defined.

(** ** The scheduled tasks of the response *)

Lemma Sorted_map {A B : Type} (f : A -> B) (R : B -> B -> Prop) (l : list A) :
  Sorted (fun a b => R (f a) (f b)) l -> Sorted R (map f l).
Proof.
  induction 1 as [|x l Hs IH Hhd]; simpl; constructor; [exact IH|].
  destruct Hhd; simpl; constructor; assumption.
Qed.

Lemma start_sorted_disjoint_chain (l : list Interval.t) :
  Forall proper l -> pairwise_disjoint l -> Sorted start_le l -> chain l.
Proof.
  intros Hp Hd Hs. induction Hs as [|x s Hs IH Hhd]; [constructor|].
  inversion Hp as [|? ? Hx Hl]; subst. inversion Hd as [|? ? Hxs Hds]; subst.
  constructor; [apply IH; assumption|].
  destruct Hhd as [|y s Hxy]; constructor.
  inversion Hxs as [|? ? Hdis _]; subst. inversion Hl as [|? ? Hy _]; subst.
  unfold follows, disjoint, proper, start_le in *. lia.
Qed.

(** X15. On a valid request the [scheduled_tasks] of the response are in
    chronological order without overlap: each task starts no earlier than
    the task before it ends. *)
Theorem scheduled_tasks_chronological (request : DayScheduleRequest.t) :
  valid_request request = true ->
  exists response,
    build_day_timeline request = Return response
    /\ chain (map task_span (TimelineResponse.scheduled_tasks response)).
Proof.
  intros Hv. destruct (valid_request_runs _ Hv) as (st & response & Hrun).
  exists response. split; [apply (run_returns _ _ _ Hrun)|].
  destruct (separated_scheduled _ _ Hv (run_inv _ _ _ Hrun)) as (Hp & Hd & _).
  rewrite (run_scheduled _ _ _ Hrun).
  assert (Hperm : Permutation (map task_span (scheduled_tasks st))
                    (map task_span (sorted scheduled_key_le (scheduled_tasks st))))
    by (apply Permutation_map; symmetry; apply sorted_perm).
  apply start_sorted_disjoint_chain.
  - eapply Permutation_Forall; eauto.
  - eapply pairwise_disjoint_perm; eauto.
  - apply Sorted_map.
    eapply Sorted_weaken; [|apply sorted_Sorted].
    + intros a b H. unfold scheduled_key_le in H. unfold start_le. simpl. lia.
    + intros a b. unfold scheduled_key_le. lia.
Qed.

Lemma scheduled_tasks_chronological_witness :
  exists response,
    build_day_timeline example_request = Return response
    /\ chain (map task_span (TimelineResponse.scheduled_tasks response)).
Proof.
  apply (scheduled_tasks_chronological example_request). reflexivity.
Defined.

(** ** The slots of the timeline *)

Lemma new_slot_Return ty i ttl s e cat prio (slot : TimelineSlot.t) :
  TimelineSlot.new ty i ttl s e cat prio = Return slot ->
  slot = TimelineSlot.mk ty i ttl s e cat prio.
Proof.
  unfold TimelineSlot.new. destruct (TimelineSlot.valid _); congruence.
Qed.

Lemma mapM_Return {A B : Type} (f : A -> outcome B) (g : A -> B) (l : list A) :
  (forall a b, f a = Return b -> b = g a) ->
  forall ys, mapM f l = Return ys -> ys = map g l.
Proof.
  intros Hf. induction l as [|a l IH]; simpl; intros ys H.
  - now injection H as <-.
  - apply bind_Return in H. destruct H as (y & Hy & H).
    apply bind_Return in H. destruct H as (ys' & Hys & H).
    injection H as <-. now rewrite (Hf _ _ Hy), (IH _ Hys).
Qed.

(** What the walk appends: the occupied slots it is given, and free slots
    whose id is spelled from their bounds. *)
Lemma compose_fold_emits (occupied : list TimelineSlot.t) :
  forall timeline cursor timeline' cursor',
    foldM compose_step occupied (timeline, cursor) = Return (timeline', cursor') ->
    exists emitted,
      timeline' = timeline ++ emitted
      /\ Forall (fun s => In s occupied
                          \/ s = free_slot_rec (TimelineSlot.start_minute s)
                                               (TimelineSlot.end_minute s)) emitted.
Proof.
  induction occupied as [|slot occupied IH]; simpl;
    intros timeline cursor timeline' cursor' H.
  - injection H as <- <-. exists []. now rewrite app_nil_r.
  - apply bind_Return in H. destruct H as ([tl c] & Hstep & H).
    apply IH in H. destruct H as (emitted & -> & Hem).
    assert (Hem' : Forall (fun s => (slot = s \/ In s occupied)
                            \/ s = free_slot_rec (TimelineSlot.start_minute s)
                                                 (TimelineSlot.end_minute s)) emitted).
    { eapply Forall_impl; [|exact Hem]. simpl. tauto. }
    unfold compose_step in Hstep.
    apply bind_Return in Hstep. destruct Hstep as (tl0 & Hfree & Hstep).
    injection Hstep as <- <-.
    destruct (cursor <? TimelineSlot.start_minute slot).
    + apply bind_Return in Hfree. destruct Hfree as (fr & Hfr & Hfree).
      injection Hfree as <-. apply new_slot_Return in Hfr. subst fr.
      exists (free_slot_rec cursor (TimelineSlot.start_minute slot) :: slot :: emitted).
      split; [now rewrite <- !app_assoc|].
      constructor; [right; reflexivity|]. constructor; [left; now left | exact Hem'].
    + injection Hfree as <-. exists (slot :: emitted).
      split; [now rewrite <- !app_assoc|]. constructor; [left; now left | exact Hem'].
Qed.

Lemma compose_timeline_emits (fixed_blocks : list FixedBlock.t)
    (scheduled : list ScheduledTask.t) (timeline : list TimelineSlot.t) :
  _compose_timeline fixed_blocks scheduled = Return timeline ->
  Forall (fun s => In s (occupied_slots fixed_blocks scheduled)
                   \/ s = free_slot_rec (TimelineSlot.start_minute s)
                                        (TimelineSlot.end_minute s)) timeline.
Proof.
  unfold _compose_timeline. intros H.
  apply bind_Return in H. destruct H as (fs & Hfs & H).
  apply bind_Return in H. destruct H as (ts & Hts & H).
  apply bind_Return in H. destruct H as ([tl cursor] & Hwalk & H).
  apply (mapM_Return fixed_slot_of fixed_slot_rec) in Hfs;
    [|intros b y; apply new_slot_Return].
  apply (mapM_Return task_slot_of task_slot_rec) in Hts;
    [|intros k y; apply new_slot_Return].
  subst fs ts. fold (occupied_slots fixed_blocks scheduled) in Hwalk.
  apply compose_fold_emits in Hwalk.
  destruct Hwalk as (emitted & -> & Hem). simpl in H.
  assert (Hocc : Forall (fun s => In s (occupied_slots fixed_blocks scheduled)
                          \/ s = free_slot_rec (TimelineSlot.start_minute s)
                                               (TimelineSlot.end_minute s)) emitted).
  { eapply Forall_impl; [|exact Hem]. intros x [Hin|Hfree]; [left | now right].
    now apply sorted_In in Hin. }
  destruct (cursor <? MINUTES_PER_DAY).
  - apply bind_Return in H. destruct H as (fr & Hfr & H). injection H as <-.
    apply new_slot_Return in Hfr. subst fr.
    apply Forall_app. split; [exact Hocc|]. constructor; [|constructor].
    right. reflexivity.
  - now injection H as <-.
Qed.

(** X16. Whenever [_compose_timeline] returns, every slot of the timeline
    is the fixed slot of one of the blocks, with the id, title and bounds of
    the block, or the task slot of one of the scheduled tasks, with its id,
    title, bounds, category and priority, or a free slot titled "Free"
    whose id is "free-<start>-<end>" for its own bounds and which has
    neither category nor priority. *)
Theorem timeline_slots_classified (fixed_blocks : list FixedBlock.t)
    (scheduled : list ScheduledTask.t) (timeline : list TimelineSlot.t) :
  _compose_timeline fixed_blocks scheduled = Return timeline ->
  forall s,
    In s timeline ->
    (exists b, In b fixed_blocks /\ s = fixed_slot_rec b)
    \/ (exists k, In k scheduled /\ s = task_slot_rec k)
    \/ s = free_slot_rec (TimelineSlot.start_minute s) (TimelineSlot.end_minute s).
Proof.
  intros H s Hs. apply compose_timeline_emits in H.
  rewrite Forall_forall in H. destruct (H s Hs) as [Hin|Hfree]; [|auto].
  unfold occupied_slots in Hin. apply in_app_or in Hin.
  destruct Hin as [Hin|Hin]; apply in_map_iff in Hin; destruct Hin as (y & <- & Hy).
  - left. eauto.
  - right. left. eauto.
Qed.

Lemma timeline_slots_classified_witness :
  (exists b, In b [FixedBlock.mk "standup" "Standup" 540 570]
             /\ TimelineSlot.mk free_slot "free-0-540" "Free" 0 540 None None
                = fixed_slot_rec b)
  \/ (exists k, In k []
                /\ TimelineSlot.mk free_slot "free-0-540" "Free" 0 540 None None
                   = task_slot_rec k)
  \/ TimelineSlot.mk free_slot "free-0-540" "Free" 0 540 None None
     = free_slot_rec 0 540.
Proof.
  apply (timeline_slots_classified [FixedBlock.mk "standup" "Standup" 540 570] []
           [TimelineSlot.mk free_slot "free-0-540" "Free" 0 540 None None;
            TimelineSlot.mk fixed_slot "standup" "Standup" 540 570 None None;
            TimelineSlot.mk free_slot "free-570-1440" "Free" 570 1440 None None]
           eq_refl
           (TimelineSlot.mk free_slot "free-0-540" "Free" 0 540 None None)).
  now left.
Defined.

(** X17. On a valid request every scheduled task of the response has its
    slot in the timeline, of type task and with the id, title, bounds,
    category and priority of the task, and the timeline holds as many slots
    that are not free as there are fixed blocks and scheduled tasks. *)
Theorem scheduled_tasks_in_timeline (request : DayScheduleRequest.t) :
  valid_request request = true ->
  exists response,
    build_day_timeline request = Return response
    /\ (forall k, In k (TimelineResponse.scheduled_tasks response) ->
                  In (task_slot_rec k) (TimelineResponse.timeline response))
    /\ List.length (filter is_occupied (TimelineResponse.timeline response))
       = (List.length (DayScheduleRequest.fixed_blocks request)
          + List.length (TimelineResponse.scheduled_tasks response))%nat.
Proof.
  intros Hv. destruct (valid_request_runs _ Hv) as (st & response & Hrun).
  exists response. split; [apply (run_returns _ _ _ Hrun)|].
  assert (Hocc := run_occupied _ _ _ Hrun). split.
  - intros k Hk. apply (scheduled_response_In _ _ _ k Hrun) in Hk.
    assert (H : In (task_slot_rec k)
                   (filter is_occupied (TimelineResponse.timeline response))).
    { rewrite Hocc. apply sorted_In. unfold occupied_slots. apply in_or_app. right.
      now apply in_map. }
    apply filter_In in H. tauto.
  - rewrite Hocc, (run_scheduled _ _ _ Hrun).
    rewrite (Permutation_length (sorted_perm slot_key_le _)).
    unfold occupied_slots. rewrite length_app, !length_map.
    rewrite !(Permutation_length (sorted_perm _ _)). reflexivity.
Qed.

Lemma scheduled_tasks_in_timeline_witness :
  exists response,
    build_day_timeline example_request = Return response
    /\ (forall k, In k (TimelineResponse.scheduled_tasks response) ->
                  In (task_slot_rec k) (TimelineResponse.timeline response))
    /\ List.length (filter is_occupied (TimelineResponse.timeline response))
       = (List.length (DayScheduleRequest.fixed_blocks example_request)
          + List.length (TimelineResponse.scheduled_tasks response))%nat.
Proof.
  apply (scheduled_tasks_in_timeline example_request). reflexivity.
Defined.

(** ** A day without gaps *)




(** ** What is left at the end of the loop *)

(** Every task the loop turns down found no gap at its turn. *)
Lemma assign_loop_rejected (tasks : list FlexibleTask.t) :
  forall st st' t,
    foldM assign_step tasks st = Return st' ->
    In t (unscheduled_tasks st') ->
    In t (unscheduled_tasks st)
    \/ exists done rest s,
         tasks = done ++ t :: rest
         /\ foldM assign_step done st = Return s
         /\ Forall (fun g => Interval.duration g < FlexibleTask.duration_minutes t)
                   (available_gaps s).
Proof.
  induction tasks as [|task tasks IH]; simpl; intros st st' t Hrun Ht.
  - injection Hrun as <-. now left.
  - apply bind_Return in Hrun. destruct Hrun as (st1 & Hstep & Hrun).
    destruct (IH _ _ _ Hrun Ht) as [Ht1 | (done & rest & s & -> & Hd & Hs)].
    + destruct (assign_step_cases st task) as (st2 & Hst2 & Hcase).
      rewrite Hstep in Hst2. injection Hst2 as <-.
      destruct Hcase as [(Hshort & ->) | (gap & l1 & l2 & _ & _ & _ & _ & _ & ->)];
        simpl in Ht1; [|now left].
      apply in_app_or in Ht1. destruct Ht1 as [Ht1|[<-|[]]]; [now left|].
      right. exists [], tasks, st. auto.
    + right. exists (task :: done), rest, s. repeat split; auto.
      simpl. now rewrite Hstep.
Qed.

(** X19. Nothing that was turned down would fit afterwards: on a valid
    request, every gap left in the pool when the loop ends is shorter than
    every task of [unscheduled_tasks]. *)
Theorem unscheduled_fit_no_gap_left (request : DayScheduleRequest.t) :
  valid_request request = true ->
  exists response st,
    build_day_timeline request = Return response
    /\ foldM assign_step (prioritized request) (loop_start request) = Return st
    /\ forall t g,
         In t (TimelineResponse.unscheduled_tasks response) ->
         In g (available_gaps st) ->
         Interval.duration g < FlexibleTask.duration_minutes t.
Proof.
  intros Hv. destruct (valid_request_runs _ Hv) as (st & response & Hrun).
  exists response, st. split; [apply (run_returns _ _ _ Hrun)|].
  split; [apply (run_loop _ _ _ Hrun)|].
  intros t g Ht Hg. rewrite (run_unscheduled _ _ _ Hrun) in Ht.
  assert (Hloop := run_loop _ _ _ Hrun).
  destruct (assign_loop_rejected _ _ _ _ Hloop Ht)
    as [[] | (done & rest & s & Hsplit & Hd & Hshort)].
  rewrite Hsplit, foldM_app, Hd in Hloop. cbn [bind] in Hloop.
  assert (Hpos := prioritized_nonneg _ Hv). rewrite Hsplit in Hpos.
  apply Forall_app in Hpos. destruct Hpos as [_ Hpos].
  destruct (assign_loop_short_gaps _ _ _ _ Hpos Hshort Hloop) as (Hfinal & _).
  rewrite Forall_forall in Hfinal. now apply Hfinal.
Qed.

Lemma unscheduled_fit_no_gap_left_witness :
  exists response st,
    build_day_timeline crowded_request = Return response
    /\ foldM assign_step (prioritized crowded_request) (loop_start crowded_request)
       = Return st
    /\ forall t g,
         In t (TimelineResponse.unscheduled_tasks response) ->
         In g (available_gaps st) ->
         Interval.duration g < FlexibleTask.duration_minutes t.
Proof.
  apply (unscheduled_fit_no_gap_left crowded_request). reflexivity.
Defined.

(** ** The schema of the slots *)

Lemma new_slot_valid ty i ttl s e cat prio (slot : TimelineSlot.t) :
  TimelineSlot.new ty i ttl s e cat prio = Return slot ->
  TimelineSlot.valid slot = true.
Proof.
  unfold TimelineSlot.new.
  destruct (TimelineSlot.valid _) eqn:E; [|discriminate]. now injection 1 as <-.
Qed.

Lemma mapM_Forall {A B : Type} (f : A -> outcome B) (P : B -> Prop) (l : list A) :
  (forall a b, f a = Return b -> P b) ->
  forall ys, mapM f l = Return ys -> Forall P ys.
Proof.
  intros Hf. induction l as [|a l IH]; simpl; intros ys H.
  - injection H as <-. constructor.
  - apply bind_Return in H. destruct H as (y & Hy & H).
    apply bind_Return in H. destruct H as (ys' & Hys & H).
    injection H as <-. constructor; eauto.
Qed.

Lemma compose_fold_valid (occupied : list TimelineSlot.t) :
  forall timeline cursor timeline' cursor',
    Forall (fun s => TimelineSlot.valid s = true) occupied ->
    Forall (fun s => TimelineSlot.valid s = true) timeline ->
    foldM compose_step occupied (timeline, cursor) = Return (timeline', cursor') ->
    Forall (fun s => TimelineSlot.valid s = true) timeline'.
Proof.
  induction occupied as [|slot occupied IH]; simpl;
    intros timeline cursor timeline' cursor' Ho Ht H.
  - now injection H as <- <-.
  - inversion Ho as [|? ? Hs Ho']; subst.
    apply bind_Return in H. destruct H as ([tl c] & Hstep & H).
    apply (IH _ _ _ _ Ho') in H; [exact H|]. clear IH H.
    unfold compose_step in Hstep.
    apply bind_Return in Hstep. destruct Hstep as (tl0 & Hfree & Hstep).
    injection Hstep as <- <-. apply Forall_app. split; [|now constructor].
    destruct (cursor <? TimelineSlot.start_minute slot).
    + apply bind_Return in Hfree. destruct Hfree as (fr & Hfr & Hfree).
      injection Hfree as <-. apply new_slot_valid in Hfr.
      apply Forall_app. split; [exact Ht | now constructor].
    + now injection Hfree as <-.
Qed.

(** X20. Whatever the request, a timeline that [build_day_timeline]
    returns holds only slots that pass the schema of [TimelineSlot]:
    [0 <= start_minute < 1440] and [0 < end_minute <= 1440]. *)
Theorem answered_slots_pass_schema (request : DayScheduleRequest.t)
    (response : TimelineResponse.t) :
  build_day_timeline request = Return response ->
  forall s, In s (TimelineResponse.timeline response) ->
            0 <= TimelineSlot.start_minute s < MINUTES_PER_DAY
            /\ 0 < TimelineSlot.end_minute s <= MINUTES_PER_DAY.
Proof.
  intros H. apply build_Return in H. destruct H as (st & timeline & _ & Htl & ->).
  simpl. unfold _compose_timeline in Htl.
  apply bind_Return in Htl. destruct Htl as (fs & Hfs & Htl).
  apply bind_Return in Htl. destruct Htl as (ts & Hts & Htl).
  apply bind_Return in Htl. destruct Htl as ([tl cursor] & Hwalk & Htl).
  apply (mapM_Forall fixed_slot_of (fun s => TimelineSlot.valid s = true)) in Hfs;
    [|intros b y; apply new_slot_valid].
  apply (mapM_Forall task_slot_of (fun s => TimelineSlot.valid s = true)) in Hts;
    [|intros k y; apply new_slot_valid].
  apply compose_fold_valid in Hwalk; [|
    eapply Permutation_Forall; [symmetry; apply sorted_perm|];
    apply Forall_app; now split | constructor].
  assert (Hall : Forall (fun s => TimelineSlot.valid s = true) timeline).
  { destruct (cursor <? MINUTES_PER_DAY).
    - apply bind_Return in Htl. destruct Htl as (fr & Hfr & Htl). injection Htl as <-.
      apply new_slot_valid in Hfr. apply Forall_app. split; [exact Hwalk | now constructor].
    - now injection Htl as <-. }
  intros s Hs. rewrite Forall_forall in Hall. apply valid_slot_bounds. now apply Hall.
Qed.

Lemma answered_slots_pass_schema_witness :
  forallb TimelineSlot.valid
    [TimelineSlot.mk free_slot "free-0-540" "Free" 0 540 None None;
     TimelineSlot.mk fixed_slot "standup" "Standup" 540 570 None None;
     TimelineSlot.mk free_slot "free-570-1440" "Free" 570 1440 None None]
  = true
  /\ (0 <= 540 < MINUTES_PER_DAY /\ 0 < 570 <= MINUTES_PER_DAY).
Proof.
  split; [reflexivity|].
  apply (answered_slots_pass_schema standup_request
           (TimelineResponse.mk 0 1440 15
              [TimelineSlot.mk free_slot "free-0-540" "Free" 0 540 None None;
               TimelineSlot.mk fixed_slot "standup" "Standup" 540 570 None None;
               TimelineSlot.mk free_slot "free-570-1440" "Free" 570 1440 None None]
              [] [])
           eq_refl
           (TimelineSlot.mk fixed_slot "standup" "Standup" 540 570 None None)).
  right. now left.
Defined.

(** ** The gaps are maximal *)

Lemma merge_fold_Forall (P : Interval.t -> Prop) :
  (forall x e, P x -> Interval.end_ x <= e -> P (Interval.mk (Interval.start x) e)) ->
  forall rest front last front' last',
    fold_left merge_step rest (front, last) = (front', last') ->
    Forall P rest -> Forall P (front ++ [last]) -> Forall P (front' ++ [last']).
Proof.
  intros Hext.
  induction rest as [|cur rest IH]; simpl; intros front last front' last' Hf Hr Hw.
  - now injection Hf as <- <-.
  - inversion Hr as [|? ? Hc Hr']; subst.
    apply Forall_app in Hw. destruct Hw as [Hwf Hwl].
    inversion Hwl as [|? ? Hlast _]; subst.
    destruct (Interval.start cur <=? Interval.end_ last) eqn:E;
      apply (IH _ _ _ _ Hf Hr'); apply Forall_app; split; auto.
    + constructor; [|constructor]. apply Hext; [exact Hlast | lia].
    + apply Forall_app. split; auto.
Qed.

Lemma merge_intervals_nonempty (intervals : list Interval.t) :
  Forall (fun i => Interval.start i < Interval.end_ i) intervals ->
  Forall (fun i => Interval.start i < Interval.end_ i) (_merge_intervals intervals).
Proof.
  intros Hw. unfold _merge_intervals.
  assert (Hperm := sorted_perm interval_key_le intervals).
  apply (Permutation_Forall (Permutation_sym Hperm)) in Hw.
  destruct (sorted interval_key_le intervals) as [|first rest]; [constructor|].
  destruct (fold_left merge_step rest ([], first)) as [front last] eqn:F.
  inversion Hw as [|? ? Hfirst Hrest]; subst.
  assert (Hext : forall x e, Interval.start x < Interval.end_ x -> Interval.end_ x <= e ->
                 Interval.start (Interval.mk (Interval.start x) e)
                 < Interval.end_ (Interval.mk (Interval.start x) e))
    by (intros x e Hx He; simpl; lia).
  apply (merge_fold_Forall (fun i => Interval.start i < Interval.end_ i) Hext
           rest [] first front last F Hrest).
  repeat constructor. exact Hfirst.
Qed.

Lemma gap_fold_apart (merged : list Interval.t) :
  forall gaps0 cursor gaps1 cursor1,
    fold_left gap_step merged (gaps0, cursor) = (gaps1, cursor1) ->
    Forall (fun r => Interval.start r < Interval.end_ r) merged ->
    exists gaps,
      gaps1 = gaps0 ++ gaps
      /\ cursor <= cursor1
      /\ Sorted strictly_apart gaps
      /\ Forall (fun g => cursor <= Interval.start g /\ Interval.end_ g < cursor1) gaps.
Proof.
  induction merged as [|r merged IH]; simpl; intros gaps0 cursor gaps1 cursor1 Hf Hne.
  - injection Hf as <- <-. exists []. rewrite app_nil_r.
    repeat split; try constructor; lia.
  - inversion Hne as [|? ? Hr Hne']; subst.
    apply IH in Hf; [|exact Hne']. destruct Hf as (gaps & -> & Hc & Hs & Hb).
    assert (Hb' : Forall (fun g => cursor <= Interval.start g
                                   /\ Interval.end_ g < cursor1) gaps).
    { eapply Forall_impl; [|exact Hb]. simpl. intros; lia. }
    destruct (cursor <? Interval.start r) eqn:E.
    + exists (Interval.mk cursor (Interval.start r) :: gaps).
      split; [now rewrite <- app_assoc|]. split; [lia|]. split.
      * constructor; [exact Hs|]. destruct gaps as [|g gaps]; constructor.
        inversion Hb; subst. unfold strictly_apart. simpl. lia.
      * constructor; [simpl; lia | exact Hb'].
    + exists gaps. repeat split; auto; lia.
Qed.

Lemma Sorted_snoc_all {A : Type} (R : A -> A -> Prop) (l : list A) (y : A) :
  Sorted R l -> Forall (fun x => R x y) l -> Sorted R (l ++ [y]).
Proof.
  induction 1 as [|x l Hs IH Hhd]; simpl; intros Hall.
  - repeat constructor.
  - inversion Hall as [|? ? Hxy Hall']; subst. constructor; [auto|].
    destruct Hhd; simpl; constructor; assumption.
Qed.

(** X21. The gaps are maximal: for schema-valid fixed blocks and a buffer
    that is not negative, each gap of [_available_gaps] starts strictly
    after the previous one ends, so two gaps never touch or overlap and at
    least one reserved minute lies between them. *)
Theorem available_gaps_apart (fixed_blocks : list FixedBlock.t) (buf : Z) :
  0 <= buf -> forallb FixedBlock.valid fixed_blocks = true ->
  Sorted strictly_apart (_available_gaps fixed_blocks buf).
Proof.
  intros Hbuf Hv. unfold _available_gaps.
  destruct fixed_blocks as [|b0 bs] eqn:Eb; [repeat constructor|].
  rewrite <- Eb in *. clear Eb b0 bs.
  set (buffered := map (buffered_interval buf) fixed_blocks).
  assert (Hne : Forall (fun i => Interval.start i < Interval.end_ i) buffered).
  { apply Forall_map, Forall_forall. intros b Hb. rewrite forallb_forall in Hv.
    assert (Hp := valid_block_proper b (Hv b Hb)).
    unfold proper, block_span, buffered_interval in *.
    cbn [Interval.start Interval.end_] in *. unfold MINUTES_PER_DAY in *. lia. }
  apply merge_intervals_nonempty in Hne.
  destruct (fold_left gap_step (_merge_intervals buffered) ([], 0)) as [gaps cursor] eqn:F.
  apply gap_fold_apart in F; [|exact Hne].
  destruct F as (gaps' & -> & _ & Hs & Hb). simpl.
  destruct (cursor <? MINUTES_PER_DAY); [|exact Hs].
  apply Sorted_snoc_all; [exact Hs|].
  eapply Forall_impl; [|exact Hb]. unfold strictly_apart. simpl. intros; lia.
Qed.

Lemma available_gaps_apart_witness :
  Sorted strictly_apart
    (_available_gaps (DayScheduleRequest.fixed_blocks example_request) 10).
Proof.
  apply (available_gaps_apart (DayScheduleRequest.fixed_blocks example_request) 10);
    [lia | reflexivity].
Defined.
